(** * A shallow embedding of the reactive core of [sig] (package [internal])

    Sources embedded here:
    - [Signal] (Read, Write, Value, valueUnsafe, Commit, isEqual)
    - [Computed] (NewComputed, run, Link, ClearDeps)
    - [Effect] (NewEffect, run) and [EffectQueue], [NodeQueue]
    - [PriorityHeap] (Insert, InsertAll, Remove, Drain)
    - [Scheduler] (Schedule, Run), [Batcher] (Batch)
    - [Tracker] (RunWithComputation, Track, shouldTrack)
    - [Runtime] (Schedule, Flush, recompute)
    - [Owner] (AddChild, Dispose, DisposeChildren)

    Intrusive doubly-linked lists (dependency lists, subscriber lists,
    heap buckets, the owner sibling list) are modelled by Rocq lists in
    list order (head first); adding at the tail is [l ++ [x]], unlinking
    an entry removes it from the list.  Nodes live in an arena
    ([list Node]) and pointers are indices into it. *)

From Stdlib Require Import ZArith List Bool Lia Sorted.
Import ListNotations.
Open Scope Z_scope.

(* ------------------------------------------------------------------ *)
(** ** Values and [isEqual] *)

(** Erased [any] values as they reach [isEqual]: the nil interface, an
    [int], a pointer [*int] (its address) and a non-nil slice [[]int].
    [int] and [*int] are comparable Go types, [[]int] is not. *)
Inductive gval :=
| GNil
| GInt (z : Z)
| GPtr (addr : nat)
| GSlice (l : list Z).

(** Runtime type of a non-nil value, as [reflect.ValueOf(a).Type()]. *)
Inductive gtype := TInt | TPtr | TSlice.

Definition type_of (v : gval) : option gtype :=
  match v with
  | GNil => None
  | GInt _ => Some TInt
  | GPtr _ => Some TPtr
  | GSlice _ => Some TSlice
  end.

Definition gtype_eqb (a b : gtype) : bool :=
  match a, b with
  | TInt, TInt | TPtr, TPtr | TSlice, TSlice => true
  | _, _ => false
  end.

Definition comparable (t : gtype) : bool :=
  match t with TInt | TPtr => true | TSlice => false end.

(** Go's [==] on two values of the same comparable type: integers by
    value, pointers by address. *)
Definition go_eq (a b : gval) : bool :=
  match a, b with
  | GInt x, GInt y => Z.eqb x y
  | GPtr p, GPtr q => Nat.eqb p q
  | _, _ => false
  end.

(** [reflect.DeepEqual] on two non-nil [[]int] slices: same length and
    the same elements (the same-backing-array fast path agrees). *)
Fixpoint list_Z_eqb (l1 l2 : list Z) : bool :=
  match l1, l2 with
  | [], [] => true
  | x :: r1, y :: r2 => Z.eqb x y && list_Z_eqb r1 r2
  | _, _ => false
  end.

Definition deep_equal (a b : gval) : bool :=
  match a, b with
  | GSlice l1, GSlice l2 => list_Z_eqb l1 l2
  | _, _ => go_eq a b
  end.

(** [isEqual(a, b any)] of [signal.go]. *)
Definition isEqual (a b : gval) : bool :=
  match a, b with
  | GNil, GNil => true
  | GNil, _ | _, GNil => false
  | _, _ =>
      match type_of a, type_of b with
      | Some ta, Some tb =>
          if negb (gtype_eqb ta tb) then false
          else if comparable ta && comparable tb then go_eq a b
          else deep_equal a b
      | _, _ => false
      end
  end.

(* ------------------------------------------------------------------ *)
(** ** Compute thunks *)

(** A compute or effect body is user code; the model gives it the
    operations it performs on the runtime: reading a node
    ([node.Read()]), writing a signal ([s.Write(v)]) and printing a value
    ([fmt.Println]), ending with the value it returns. *)
Inductive comp :=
| CRet (v : gval)
| CRead (n : nat) (k : gval -> comp)
| CWrite (n : nat) (v : gval) (k : comp)
| COut (v : gval) (k : comp).

(** [func(node *Computed) any { effect(); return nil }] of [NewEffect]. *)
Fixpoint eff_wrap (c : comp) : comp :=
  match c with
  | CRet _ => CRet GNil
  | CRead n k => CRead n (fun v => eff_wrap (k v))
  | CWrite n v k => CWrite n v (eff_wrap k)
  | COut v k => COut v (eff_wrap k)
  end.

(* ------------------------------------------------------------------ *)
(** ** Runtime state *)

Inductive EffectType := EffectRender | EffectUser.

(** The node's [fn] field: nil for a plain signal, [c.run] for a
    computed, [e.run] for an effect. *)
Inductive FnKind := FnNil | FnRun | FnEffect (t : EffectType).

(** A [*Computed] / [*Signal] node: the [Signal] part ([value],
    [pendingValue], [subsHead]), the [ReactiveNode] part ([flags]
    restricted to [FlagInHeap], [height], [version]) and the [Computed]
    part ([initialized], [fn], [depsHead], [compute]). *)
Record Node := mkNode {
  n_value : gval;
  n_pending : option gval;
  n_height : nat;
  n_inheap : bool;
  n_version : Z;
  n_subs : list nat;
  n_deps : list nat;
  n_initialized : bool;
  n_fn : FnKind;
  n_compute : comp
}.

Definition dflt_node : Node :=
  mkNode GNil None 0 false 0 [] [] false FnNil (CRet GNil).

(** [PriorityHeap]: [min], [max] and the bucket array [nodes]
    ([make([]*heapNode, 2000)]); the [loopkup] map is implicit in the
    bucket lists.  Heights are below 2000 throughout (Go panics with an
    index out of range beyond). *)
Record Heap := mkHeap {
  h_min : nat;
  h_max : nat;
  h_nodes : list (list nat)
}.

Definition NewHeap : Heap := mkHeap 0 0 (repeat [] 2000).

(** [Scheduler]: [clock], [scheduled], [running]. *)
Record Sched := mkSched {
  s_clock : Z;
  s_scheduled : bool;
  s_running : bool
}.

(** [Tracker]: [tracking], [executingGID], [currentComputation]
    ([currentOwner] plays no part in the modelled operations). *)
Record Tracker := mkTracker {
  t_tracking : bool;
  t_executingGID : Z;
  t_current : option nat
}.

(** [Runtime].  [rt_gid] is the id of the goroutine that owns this
    runtime ([GetRuntime] is keyed by it), i.e. what [getGID()] returns
    for every call made on it.  [rt_out] collects what user code
    prints.  The three settled queues hold no callbacks in the
    modelled programs and are left out. *)
Record Runtime := mkRuntime {
  rt_nodes : list Node;
  rt_heap : Heap;
  rt_tracker : Tracker;
  rt_depth : nat;
  rt_sched : Sched;
  rt_nodeQueue : list nat;
  rt_render : list nat;
  rt_user : list nat;
  rt_gid : Z;
  rt_out : list gval
}.

Definition NewRuntime (gid : Z) : Runtime :=
  mkRuntime [] NewHeap (mkTracker true 0 None) 0 (mkSched 0 false false)
    [] [] [] gid [].

(** Outcome of a runtime operation: normal return, a panic unwinding
    out of it (with the state at that point), or the model's fuel ran
    out (the Go code would still be running). *)
Inductive outcome (A : Type) :=
| Done (a : A)
| Failed (st : Runtime)
| NoFuel.
Arguments Done {A} a.
Arguments Failed {A} st.
Arguments NoFuel {A}.

Definition obind {A B} (m : outcome A) (k : A -> outcome B) : outcome B :=
  match m with
  | Done a => k a
  | Failed st => Failed st
  | NoFuel => NoFuel
  end.

Notation "'let*' x ':=' m 'in' k" := (obind m (fun x => k))
  (at level 200, x name, m at level 100, k at level 200).

(* ------------------------------------------------------------------ *)
(** ** Field updates *)

Fixpoint upd {A} (l : list A) (i : nat) (x : A) : list A :=
  match l, i with
  | [], _ => []
  | _ :: r, O => x :: r
  | y :: r, S j => y :: upd r j x
  end.

Definition node (st : Runtime) (n : nat) : Node := nth n (rt_nodes st) dflt_node.

Definition set_nodes (st : Runtime) (ns : list Node) : Runtime :=
  mkRuntime ns (rt_heap st) (rt_tracker st) (rt_depth st) (rt_sched st)
    (rt_nodeQueue st) (rt_render st) (rt_user st) (rt_gid st) (rt_out st).
Definition set_heap (st : Runtime) (h : Heap) : Runtime :=
  mkRuntime (rt_nodes st) h (rt_tracker st) (rt_depth st) (rt_sched st)
    (rt_nodeQueue st) (rt_render st) (rt_user st) (rt_gid st) (rt_out st).
Definition set_tracker (st : Runtime) (t : Tracker) : Runtime :=
  mkRuntime (rt_nodes st) (rt_heap st) t (rt_depth st) (rt_sched st)
    (rt_nodeQueue st) (rt_render st) (rt_user st) (rt_gid st) (rt_out st).
Definition set_depth (st : Runtime) (d : nat) : Runtime :=
  mkRuntime (rt_nodes st) (rt_heap st) (rt_tracker st) d (rt_sched st)
    (rt_nodeQueue st) (rt_render st) (rt_user st) (rt_gid st) (rt_out st).
Definition set_sched (st : Runtime) (s : Sched) : Runtime :=
  mkRuntime (rt_nodes st) (rt_heap st) (rt_tracker st) (rt_depth st) s
    (rt_nodeQueue st) (rt_render st) (rt_user st) (rt_gid st) (rt_out st).
Definition set_nodeQueue (st : Runtime) (q : list nat) : Runtime :=
  mkRuntime (rt_nodes st) (rt_heap st) (rt_tracker st) (rt_depth st)
    (rt_sched st) q (rt_render st) (rt_user st) (rt_gid st) (rt_out st).
Definition set_lanes (st : Runtime) (r u : list nat) : Runtime :=
  mkRuntime (rt_nodes st) (rt_heap st) (rt_tracker st) (rt_depth st)
    (rt_sched st) (rt_nodeQueue st) r u (rt_gid st) (rt_out st).
Definition set_out (st : Runtime) (o : list gval) : Runtime :=
  mkRuntime (rt_nodes st) (rt_heap st) (rt_tracker st) (rt_depth st)
    (rt_sched st) (rt_nodeQueue st) (rt_render st) (rt_user st) (rt_gid st) o.

Definition put_node (st : Runtime) (n : nat) (x : Node) : Runtime :=
  set_nodes st (upd (rt_nodes st) n x).

Definition with_value (x : Node) (v : gval) : Node :=
  mkNode v (n_pending x) (n_height x) (n_inheap x) (n_version x) (n_subs x)
    (n_deps x) (n_initialized x) (n_fn x) (n_compute x).
Definition with_pending (x : Node) (p : option gval) : Node :=
  mkNode (n_value x) p (n_height x) (n_inheap x) (n_version x) (n_subs x)
    (n_deps x) (n_initialized x) (n_fn x) (n_compute x).
Definition with_height (x : Node) (h : nat) : Node :=
  mkNode (n_value x) (n_pending x) h (n_inheap x) (n_version x) (n_subs x)
    (n_deps x) (n_initialized x) (n_fn x) (n_compute x).
Definition with_inheap (x : Node) (b : bool) : Node :=
  mkNode (n_value x) (n_pending x) (n_height x) b (n_version x) (n_subs x)
    (n_deps x) (n_initialized x) (n_fn x) (n_compute x).
Definition with_version (x : Node) (t : Z) : Node :=
  mkNode (n_value x) (n_pending x) (n_height x) (n_inheap x) t (n_subs x)
    (n_deps x) (n_initialized x) (n_fn x) (n_compute x).
Definition with_subs (x : Node) (l : list nat) : Node :=
  mkNode (n_value x) (n_pending x) (n_height x) (n_inheap x) (n_version x) l
    (n_deps x) (n_initialized x) (n_fn x) (n_compute x).
Definition with_deps (x : Node) (l : list nat) : Node :=
  mkNode (n_value x) (n_pending x) (n_height x) (n_inheap x) (n_version x)
    (n_subs x) l (n_initialized x) (n_fn x) (n_compute x).
Definition with_initialized (x : Node) (b : bool) : Node :=
  mkNode (n_value x) (n_pending x) (n_height x) (n_inheap x) (n_version x)
    (n_subs x) (n_deps x) b (n_fn x) (n_compute x).
Definition with_fn (x : Node) (f : FnKind) : Node :=
  mkNode (n_value x) (n_pending x) (n_height x) (n_inheap x) (n_version x)
    (n_subs x) (n_deps x) (n_initialized x) f (n_compute x).

Definition modify_node (st : Runtime) (n : nat) (f : Node -> Node) : Runtime :=
  put_node st n (f (node st n)).

Definition set_tracking_current (t : Tracker) (c : option nat) : Tracker :=
  mkTracker (t_tracking t) (t_executingGID t) c.

(* ------------------------------------------------------------------ *)
(** ** Signal values, links and tracking *)

(** [valueUnsafe] / [Value]: the pending value if present, else the
    committed value. *)
Definition Value (st : Runtime) (n : nat) : gval :=
  match n_pending (node st n) with
  | Some v => v
  | None => n_value (node st n)
  end.

(** [Signal.Commit]. *)
Definition Commit (st : Runtime) (n : nat) : Runtime :=
  match n_pending (node st n) with
  | Some v => modify_node st n (fun x => with_pending (with_value x v) None)
  | None => st
  end.

Fixpoint last_opt (l : list nat) : option nat :=
  match l with
  | [] => None
  | [x] => Some x
  | _ :: r => last_opt r
  end.

(** [Computed.Link(sub, dep)]: skip when [dep] is already the most
    recent dependency; otherwise append the link to both lists and
    raise the subscriber's height above the dependency's. *)
Definition Link (st : Runtime) (sub dep : nat) : Runtime :=
  let go :=
    let st1 := modify_node st sub (fun x => with_deps x (n_deps x ++ [dep])) in
    let st2 := modify_node st1 dep (fun x => with_subs x (n_subs x ++ [sub])) in
    if Nat.leb (n_height (node st2 sub)) (n_height (node st2 dep))
    then modify_node st2 sub (fun x => with_height x (n_height (node st2 dep) + 1))
    else st2 in
  match last_opt (n_deps (node st sub)) with
  | Some d => if Nat.eqb d dep then st else go
  | None => go
  end.

(** [Tracker.shouldTrack], with the caller's goroutine id. *)
Definition shouldTrack (t : Tracker) (callerGID : Z) : bool :=
  match t_current t with
  | Some _ => t_tracking t && Z.eqb callerGID (t_executingGID t)
  | None => false
  end.

(** [Tracker.Track(node)], called from goroutine [callerGID]. *)
Definition Track (callerGID : Z) (st : Runtime) (n : nat) : Runtime :=
  let t := rt_tracker st in
  if shouldTrack t callerGID then
    match t_current t with
    | Some c => Link st c n
    | None => st
    end
  else st.

(** [Signal.Read]: track, then return [Value()]. *)
Definition Read (st : Runtime) (n : nat) : Runtime * gval :=
  let st1 := Track (rt_gid st) st n in (st1, Value st1 n).

Fixpoint remove_one (x : nat) (l : list nat) : list nat :=
  match l with
  | [] => []
  | y :: r => if Nat.eqb y x then r else y :: remove_one x r
  end.

(** [Computed.ClearDeps]: unlink every dependency link of [c] from its
    dependency's subscriber list, then empty the dependency list. *)
Definition ClearDeps (st : Runtime) (c : nat) : Runtime :=
  let st1 := fold_left
    (fun s d => modify_node s d (fun x => with_subs x (remove_one c (n_subs x))))
    (n_deps (node st c)) st in
  modify_node st1 c (fun x => with_deps x []).

(* ------------------------------------------------------------------ *)
(** ** Priority heap *)

Definition bucket (h : Heap) (k : nat) : list nat := nth k (h_nodes h) [].

Definition heap_set_min (h : Heap) (m : nat) : Heap := mkHeap m (h_max h) (h_nodes h).
Definition heap_set_max (h : Heap) (m : nat) : Heap := mkHeap (h_min h) m (h_nodes h).
Definition heap_set_bucket (h : Heap) (k : nat) (b : list nat) : Heap :=
  mkHeap (h_min h) (h_max h) (upd (h_nodes h) k b).

(** [PriorityHeap.Insert]. *)
Definition Insert (st : Runtime) (n : nat) : Runtime :=
  if n_inheap (node st n) then st
  else
    let st1 := modify_node st n (fun x => with_inheap x true) in
    let height := n_height (node st1 n) in
    let h := rt_heap st1 in
    let h1 := heap_set_bucket h height (bucket h height ++ [n]) in
    let h2 := if Nat.ltb (h_max h1) height then heap_set_max h1 height else h1 in
    set_heap st1 h2.

(** [PriorityHeap.InsertAll]. *)
Definition InsertAll (st : Runtime) (l : list nat) : Runtime :=
  fold_left Insert l st.

(** [PriorityHeap.Remove]: the entry is unlinked from the bucket of the
    node's current height. *)
Definition Remove (st : Runtime) (n : nat) : Runtime :=
  if negb (n_inheap (node st n)) then st
  else
    let st1 := modify_node st n (fun x => with_inheap x false) in
    let height := n_height (node st1 n) in
    let h := rt_heap st1 in
    set_heap st1 (heap_set_bucket h height (remove_one n (bucket h height))).

Section Drain.
Variable process : nat -> Runtime -> outcome Runtime.

(** The inner loop of [Drain]:
    [for entry != nil { h.Remove(entry.node); process(entry.node);
    entry = h.nodes[h.min] }]; one unit of fuel per iteration. *)
Fixpoint drain_bucket (fuel : nat) (st : Runtime) : outcome Runtime :=
  match fuel with
  | O => NoFuel
  | S f =>
      match bucket (rt_heap st) (h_min (rt_heap st)) with
      | [] => Done st
      | n :: _ =>
          let* st2 := process n (Remove st n) in
          drain_bucket f st2
      end
  end.

(** The outer loop [for ; h.min <= h.max; h.min++ { ... }]. *)
Fixpoint drain_heights (fuel : nat) (st : Runtime) : outcome Runtime :=
  match fuel with
  | O => NoFuel
  | S f =>
      if Nat.leb (h_min (rt_heap st)) (h_max (rt_heap st)) then
        let* st1 := drain_bucket f st in
        drain_heights f
          (set_heap st1 (heap_set_min (rt_heap st1) (S (h_min (rt_heap st1)))))
      else Done st
  end.

(** [PriorityHeap.Drain(process)]. *)
Definition Drain (fuel : nat) (st : Runtime) : outcome Runtime :=
  let* st1 := drain_heights fuel (set_heap st (heap_set_min (rt_heap st) 0)) in
  Done (set_heap st1 (heap_set_max (rt_heap st1) 0)).
End Drain.

(* ------------------------------------------------------------------ *)
(** ** Scheduler *)

Inductive RunErr := NoErr | InfiniteLoop.

Definition sched_set_scheduled (s : Sched) (b : bool) : Sched :=
  mkSched (s_clock s) b (s_running s).
Definition sched_set_running (s : Sched) (b : bool) : Sched :=
  mkSched (s_clock s) (s_scheduled s) b.
Definition sched_tick (s : Sched) : Sched :=
  mkSched (s_clock s + 1) (s_scheduled s) (s_running s).

Definition set_scheduled (st : Runtime) (b : bool) : Runtime :=
  set_sched st (sched_set_scheduled (rt_sched st) b).
Definition set_running (st : Runtime) (b : bool) : Runtime :=
  set_sched st (sched_set_running (rt_sched st) b).
Definition tick (st : Runtime) : Runtime := set_sched st (sched_tick (rt_sched st)).

(** [Scheduler.Schedule]. *)
Definition SchedSchedule (st : Runtime) : Runtime := set_scheduled st true.

(** Bound of the infinite-loop guard: [count > 1e5]. *)
Definition loop_limit : Z := 100000.

Section Run.
Variable body : Runtime -> outcome Runtime.

(** The loop of [Scheduler.Run]:
    [for s.scheduled.Swap(false) { count++; if count > 1e5 { return
    err }; s.clock.Add(1); fn() }].  [iters] only bounds the
    recursion: the guard stops the loop after [loop_limit + 1]
    rounds, which is what [Run] grants. *)
Fixpoint run_loop (iters : nat) (count : Z) (st : Runtime)
  : outcome (RunErr * Runtime) :=
  match iters with
  | O => NoFuel
  | S i =>
      if s_scheduled (rt_sched st) then
        let st1 := set_scheduled st false in
        let count1 := count + 1 in
        if Z.ltb loop_limit count1 then Done (InfiniteLoop, st1)
        else
          let* st3 := body (tick st1) in
          run_loop i count1 st3
      else Done (NoErr, st)
  end.

(** [Scheduler.Run(fn) error]: compare-and-swap [running], loop, and
    [defer s.running.Store(false)] (also when [fn] panics). *)
Definition SchedRun (st : Runtime) : outcome (RunErr * Runtime) :=
  if s_running (rt_sched st) then Done (NoErr, st)
  else
    match run_loop (Z.to_nat (loop_limit + 1)) 0 (set_running st true) with
    | Done (e, st1) => Done (e, set_running st1 false)
    | Failed st1 => Failed (set_running st1 false)
    | NoFuel => NoFuel
    end.
End Run.

(* ------------------------------------------------------------------ *)
(** ** Queues *)

(** [EffectQueue.Enqueue(typ, fn)]: the closure pushed by [Effect.run]
    is identified by its effect node. *)
Definition Enqueue (st : Runtime) (t : EffectType) (e : nat) : Runtime :=
  match t with
  | EffectRender => set_lanes st (rt_render st ++ [e]) (rt_user st)
  | EffectUser => set_lanes st (rt_render st) (rt_user st ++ [e])
  end.

Definition lane (st : Runtime) (t : EffectType) : list nat :=
  match t with EffectRender => rt_render st | EffectUser => rt_user st end.

Definition ClearEffects (st : Runtime) (t : EffectType) : Runtime :=
  match t with
  | EffectRender => set_lanes st [] (rt_user st)
  | EffectUser => set_lanes st (rt_render st) []
  end.

(** [NodeQueue.Commit]: commit every queued signal, then empty the
    queue. *)
Definition NodeQueueCommit (st : Runtime) : Runtime :=
  set_nodeQueue (fold_left Commit (rt_nodeQueue st) st) [].

(** [NodeQueue.Enqueue]; no code of the package calls it. *)
Definition NodeQueueEnqueue (st : Runtime) (n : nat) : Runtime :=
  set_nodeQueue st (rt_nodeQueue st ++ [n]).

(** [Tracker.RunWithComputation(node, fn)]: save the current
    computation, install [node] and record the executing goroutine,
    run [fn], restore the computation (a deferred restore: also when
    [fn] panics; the deferred [node.recover()] finds no error listener
    in the modelled programs and re-panics). *)
Definition RunWithComputation (n : nat) (f : Runtime -> outcome Runtime)
    (st : Runtime) : outcome Runtime :=
  let t := rt_tracker st in
  let restore (s : Runtime) :=
    set_tracker s (set_tracking_current (rt_tracker s) (t_current t)) in
  match f (set_tracker st (mkTracker (t_tracking t) (rt_gid st) (Some n))) with
  | Done s => Done (restore s)
  | Failed s => Failed (restore s)
  | NoFuel => NoFuel
  end.

(** [c.Dispose()] as called by [Computed.run] on a re-run.  The owner of
    a computed has no children and no cleanups in the modelled programs
    (compute bodies create no owners and register no cleanups); its one
    dispose listener is the one of [NewComputed]:
    [if c.depsHead != nil { r.heap.Remove(c); c.ClearDeps();
    c.SetFlags(FlagNone) }]. *)
Definition DisposeComputed (st : Runtime) (c : nat) : Runtime :=
  match n_deps (node st c) with
  | [] => st
  | _ :: _ =>
      let st1 := ClearDeps (Remove st c) c in
      modify_node st1 c (fun x => with_inheap x false)
  end.

(* ------------------------------------------------------------------ *)
(** ** The runtime: write, schedule, flush, recompute *)

(** One unit of fuel per call; [NoFuel] when it runs out. *)
Fixpoint exec (fuel : nat) (st : Runtime) (c : comp) : outcome (Runtime * gval) :=
  match fuel with
  | O => NoFuel
  | S f =>
      match c with
      | CRet v => Done (st, v)
      | CRead n k => let (st1, v) := Read st n in exec f st1 (k v)
      | CWrite n v k => let* st1 := Write f st n v in exec f st1 k
      | COut v k => exec f (set_out st (rt_out st ++ [v])) k
      end
  end

(** [Signal.Write(v)]. *)
with Write (fuel : nat) (st : Runtime) (n : nat) (v : gval) : outcome Runtime :=
  match fuel with
  | O => NoFuel
  | S f =>
      if isEqual (Value st n) v then Done st
      else
        let st1 := modify_node st n (fun x => with_pending x (Some v)) in
        let st2 := modify_node st1 n
                     (fun x => with_version x (s_clock (rt_sched st1))) in
        let st3 := InsertAll st2 (n_subs (node st2 n)) in
        Schedule f st3 true
  end

(** [Runtime.Schedule(force)]. *)
with Schedule (fuel : nat) (st : Runtime) (force : bool) : outcome Runtime :=
  match fuel with
  | O => NoFuel
  | S f =>
      if negb force && s_running (rt_sched st) then Done st
      else
        let st1 := SchedSchedule st in
        let shouldFlush :=
          Nat.eqb (rt_depth st1) 0 && negb (s_running (rt_sched st1)) in
        if shouldFlush then Flush f st1 else Done st1
  end

(** [Runtime.Flush]: [scheduler.Run(body)], panicking on its error. *)
with Flush (fuel : nat) (st : Runtime) : outcome Runtime :=
  match fuel with
  | O => NoFuel
  | S f =>
      let body (s : Runtime) :=
        let* s1 := Drain (recompute f) f s in
        let s2 := NodeQueueCommit s1 in
        let* s3 := RunEffects f EffectRender s2 in
        RunEffects f EffectUser s3 in
      match SchedRun body st with
      | Done (NoErr, st1) => Done st1
      | Done (InfiniteLoop, st1) => Failed st1
      | Failed st1 => Failed st1
      | NoFuel => NoFuel
      end
  end

(** [Runtime.recompute(node)]. *)
with recompute (fuel : nat) (n : nat) (st : Runtime) : outcome Runtime :=
  match fuel with
  | O => NoFuel
  | S f =>
      match n_fn (node st n) with
      | FnNil => Done st
      | fnk =>
          let oldValue := Value st n in
          let st1 := ClearDeps st n in
          let st2 := modify_node st1 n
                       (fun x => with_version x (s_clock (rt_sched st1))) in
          let* st3 := RunWithComputation n (runFn f fnk n) st2 in
          if isEqual oldValue (Value st3 n) then Done st3
          else Done (InsertAll st3 (n_subs (node st3 n)))
      end
  end

(** Calling the node's [fn]. *)
with runFn (fuel : nat) (fnk : FnKind) (n : nat) (st : Runtime) : outcome Runtime :=
  match fuel with
  | O => NoFuel
  | S f =>
      match fnk with
      | FnNil => Done st
      | FnRun => ComputedRun f n st
      | FnEffect t => Schedule f (Enqueue st t n) false
      end
  end

(** [Computed.run]. *)
with ComputedRun (fuel : nat) (n : nat) (st : Runtime) : outcome Runtime :=
  match fuel with
  | O => NoFuel
  | S f =>
      let st1 := if n_initialized (node st n) then DisposeComputed st n else st in
      let st2 := modify_node st1 n (fun x => with_initialized x true) in
      let* r := exec f st2 (n_compute (node st2 n)) in
      let (st3, value) := r in
      Done (modify_node st3 n (fun x => with_pending x (Some value)))
  end

(** [EffectQueue.RunEffects(typ)]: take the lane, clear it, run each
    closure of [Effect.run]: [r.tracker.RunWithComputation(e.Computed,
    e.Computed.run)] ([FlagDisposed] is set nowhere in the package). *)
with RunEffects (fuel : nat) (t : EffectType) (st : Runtime) : outcome Runtime :=
  match fuel with
  | O => NoFuel
  | S f => RunClosures f (lane st t) (ClearEffects st t)
  end

with RunClosures (fuel : nat) (l : list nat) (st : Runtime) : outcome Runtime :=
  match fuel with
  | O => NoFuel
  | S f =>
      match l with
      | [] => Done st
      | e :: r =>
          let* st1 := RunWithComputation e (ComputedRun f e) st in
          RunClosures f r st1
      end
  end.

(* ------------------------------------------------------------------ *)
(** ** Node creation and batching *)

Definition alloc (st : Runtime) (x : Node) : Runtime * nat :=
  (set_nodes st (rt_nodes st ++ [x]), length (rt_nodes st)).

(** [Runtime.NewSignal(initial)]. *)
Definition NewSignal (st : Runtime) (initial : gval) : Runtime * nat :=
  alloc st (mkNode initial None 0 false 0 [] [] false FnNil (CRet GNil)).

(** [Runtime.NewComputed(compute)]: a node built on [NewSignal(nil)]
    with [fn = c.run], then [r.recompute(c)]. *)
Definition NewComputed (fuel : nat) (st : Runtime) (compute : comp)
    : outcome (Runtime * nat) :=
  let (st1, c) := alloc st (mkNode GNil None 0 false 0 [] [] false FnRun compute) in
  let* st2 := recompute fuel c st1 in
  Done (st2, c).

(** [Runtime.NewEffect(typ, effect)]: [NewComputed] of the wrapped body,
    then [e.fn = e.run]. *)
Definition NewEffect (fuel : nat) (st : Runtime) (t : EffectType) (effect : comp)
    : outcome (Runtime * nat) :=
  let* r := NewComputed fuel st (eff_wrap effect) in
  let (st1, e) := r in
  Done (modify_node st1 e (fun x => with_fn x (FnEffect t)), e).

(** [Runtime.NewBatch(fn)] = [Batcher.Batch(fn, r.Flush)]: the deferred
    decrement and flush also run when [fn] panics. *)
Definition NewBatch (fuel : nat) (st : Runtime) (fn : Runtime -> outcome Runtime)
    : outcome Runtime :=
  let dec (s : Runtime) := set_depth s (Nat.pred (rt_depth s)) in
  match fn (set_depth st (S (rt_depth st))) with
  | Done s =>
      let s1 := dec s in
      if Nat.eqb (rt_depth s1) 0 then Flush fuel s1 else Done s1
  | Failed s =>
      let s1 := dec s in
      if Nat.eqb (rt_depth s1) 0 then
        match Flush fuel s1 with
        | Done s2 => Failed s2
        | Failed s2 => Failed s2
        | NoFuel => NoFuel
        end
      else Failed s1
  | NoFuel => NoFuel
  end.

(* ------------------------------------------------------------------ *)
(** ** Owner tree *)

Module OwnerTree.

(** An [Owner]: [cleanups], [disposeListeners] and its children in
    sibling-list order from [childrenHead].  Callbacks are identified
    by tokens; running one appends its token to the log. *)
#[warnings="-register-all"]
Inductive Owner :=
| mkOwner (cleanups : list nat) (disposeListeners : list nat)
          (children : list Owner).

Definition NewOwner : Owner := mkOwner [] [] [].

(** [Owner.OnCleanup(fn)]. *)
Definition OnCleanup (o : Owner) (fn : nat) : Owner :=
  match o with mkOwner cl ls ch => mkOwner (cl ++ [fn]) ls ch end.

(** [Owner.OnDispose(fn)]. *)
Definition OnDispose (o : Owner) (fn : nat) : Owner :=
  match o with mkOwner cl ls ch => mkOwner cl (ls ++ [fn]) ch end.

(** [parent.AddChild(child)]: the child becomes the new
    [childrenHead]. *)
Definition AddChild (parent child : Owner) : Owner :=
  match parent with mkOwner cl ls ch => mkOwner cl ls (child :: ch) end.

(** [Owner.Dispose()]: [DisposeChildren()] (each child from
    [childrenHead] along [nextSibling], then [childrenHead = nil]),
    the cleanups (then [cleanups = nil]), the dispose listeners.
    Returns the owner afterwards and the callbacks run, in order. *)
Fixpoint Dispose (o : Owner) : Owner * list nat :=
  match o with
  | mkOwner cl ls ch =>
      let fix DisposeChildren (l : list Owner) : list nat :=
        match l with
        | [] => []
        | c :: r => snd (Dispose c) ++ DisposeChildren r
        end in
      (mkOwner [] ls [], DisposeChildren ch ++ cl ++ ls)
  end.

End OwnerTree.

(* ------------------------------------------------------------------ *)
(** ** Programs run on the model *)

Module Programs.

(** Fuel for the runs below; none of them comes near it. *)
Definition budget : nat := 200.

Definition gmul (k : Z) (v : gval) : gval :=
  match v with GInt z => GInt (k * z) | _ => GNil end.

Definition gadd (a b : gval) : gval :=
  match a, b with GInt x, GInt y => GInt (x + y) | _, _ => GNil end.

(** Signal [a = 0] (node 0) and a user effect printing [a()] (node 1),
    then [setA(10)] (a flush). *)
Definition sig_write : outcome Runtime :=
  let (st0, a) := NewSignal (NewRuntime 1) (GInt 0) in
  let* r := NewEffect budget st0 EffectUser (CRead a (fun v => COut v (CRet GNil))) in
  let (st1, _) := r in
  Write budget st1 a (GInt 10).

Definition final (o : outcome Runtime) : Runtime :=
  match o with Done st => st | _ => NewRuntime 1 end.

(** Signal [a = 0] (node 0) and memo [m = a()] (node 1); the state is
    the one in which [m]'s compute is running: it is the current
    computation, on the runtime's own goroutine. *)
Definition in_memo : Runtime :=
  let (st0, a) := NewSignal (NewRuntime 1) (GInt 0) in
  match NewComputed budget st0 (CRead a (fun v => CRet v)) with
  | Done (st1, m) =>
      set_tracker st1 (mkTracker true (rt_gid st1) (Some m))
  | _ => st0
  end.

(** The dependency graph [a -> b], [a -> c], [{b, c} -> d] with
    [b = f(a)], [c = g(a)], [d = h(b, c)], [d] printing the inputs it
    reads, and a user effect printing [d()]; then [setA(x)].  Returns
    what is printed from the write on. *)
Definition diamond (f g : gval -> gval) (h : gval -> gval -> gval) (a0 x : gval)
    : outcome (list gval) :=
  let (st0, a) := NewSignal (NewRuntime 1) a0 in
  let* r1 := NewComputed budget st0 (CRead a (fun v => CRet (f v))) in
  let (st1, b) := r1 in
  let* r2 := NewComputed budget st1 (CRead a (fun v => CRet (g v))) in
  let (st2, c) := r2 in
  let* r3 := NewComputed budget st2
    (CRead b (fun vb => CRead c (fun vc => COut vb (COut vc (CRet (h vb vc)))))) in
  let (st3, d) := r3 in
  let* r4 := NewEffect budget st3 EffectUser (CRead d (fun vd => COut vd (CRet GNil))) in
  let (st4, _) := r4 in
  let* st5 := Write budget (set_out st4 []) a x in
  Done (rt_out st5).

(** Signals [a = 5] (node 0) and [fl = 0] (node 1); memos
    [z = a()] (node 2), [y = fl() == 0 ? a() : z()] (node 3) and
    [x = a() + y()] (node 4), [x] printing the inputs it reads.  Then
    [setFl(1)], after which [y] reads [z] (height 1) although [y] sits
    at height 1 and [x] at height 2; then
    [Batch(func() { setA(6); setA(7) })].  Returns what is printed
    during the batch and its flush. *)
Definition batch_glitch : outcome (list gval) :=
  let (st0, a) := NewSignal (NewRuntime 1) (GInt 5) in
  let (st1, fl) := NewSignal st0 (GInt 0) in
  let* r1 := NewComputed budget st1 (CRead a (fun v => CRet v)) in
  let (st2, z) := r1 in
  let* r2 := NewComputed budget st2
    (CRead fl (fun v => if isEqual v (GInt 0) then CRead a (fun w => CRet w)
                        else CRead z (fun w => CRet w))) in
  let (st3, y) := r2 in
  let* r3 := NewComputed budget st3
    (CRead a (fun va => CRead y (fun vy => COut va (COut vy (CRet (gadd va vy)))))) in
  let (st4, _) := r3 in
  let* st5 := Write budget st4 fl (GInt 1) in
  let* st6 := NewBatch budget (set_out st5 [])
    (fun s => let* s1 := Write budget s a (GInt 6) in Write budget s1 a (GInt 7)) in
  Done (rt_out st6).

(** Signal [s = 0] (node 0) and a memo whose compute reads [s], prints
    it and writes [s = 1]. *)
Definition self_writing : outcome (Runtime * nat) :=
  let (st0, s) := NewSignal (NewRuntime 1) (GInt 0) in
  NewComputed budget st0 (CRead s (fun v => COut v (CWrite s (GInt 1) (CRet v)))).

End Programs.

(* ------------------------------------------------------------------ *)
(** ** Observing a drain *)

Section DrainTrace.
Variable process : nat -> Runtime -> outcome Runtime.

(** [drain_bucket], [drain_heights] and [Drain] that also return the
    nodes passed to [process], in call order ([Drain_DrainT] proves
    that the states agree). *)
Fixpoint drain_bucketT (fuel : nat) (st : Runtime) : outcome (Runtime * list nat) :=
  match fuel with
  | O => NoFuel
  | S f =>
      match bucket (rt_heap st) (h_min (rt_heap st)) with
      | [] => Done (st, [])
      | n :: _ =>
          let* st2 := process n (Remove st n) in
          let* r := drain_bucketT f st2 in
          Done (fst r, n :: snd r)
      end
  end.

Fixpoint drain_heightsT (fuel : nat) (st : Runtime) : outcome (Runtime * list nat) :=
  match fuel with
  | O => NoFuel
  | S f =>
      if Nat.leb (h_min (rt_heap st)) (h_max (rt_heap st)) then
        let* r1 := drain_bucketT f st in
        let st1 := fst r1 in
        let* r2 := drain_heightsT f
          (set_heap st1 (heap_set_min (rt_heap st1) (S (h_min (rt_heap st1))))) in
        Done (fst r2, snd r1 ++ snd r2)
      else Done (st, [])
  end.

Definition DrainT (fuel : nat) (st : Runtime) : outcome (Runtime * list nat) :=
  let* r := drain_heightsT fuel (set_heap st (heap_set_min (rt_heap st) 0)) in
  Done (set_heap (fst r) (heap_set_max (rt_heap (fst r)) 0), snd r).
(** The same loops, logging each node passed to [process] together
    with the state [process] returned for it. *)
Fixpoint drain_bucketL (fuel : nat) (st : Runtime) : outcome (Runtime * list (nat * Runtime)) :=
  match fuel with
  | O => NoFuel
  | S f =>
      match bucket (rt_heap st) (h_min (rt_heap st)) with
      | [] => Done (st, [])
      | n :: _ =>
          let* st2 := process n (Remove st n) in
          let* r := drain_bucketL f st2 in
          Done (fst r, (n, st2) :: snd r)
      end
  end.

Fixpoint drain_heightsL (fuel : nat) (st : Runtime) : outcome (Runtime * list (nat * Runtime)) :=
  match fuel with
  | O => NoFuel
  | S f =>
      if Nat.leb (h_min (rt_heap st)) (h_max (rt_heap st)) then
        let* r1 := drain_bucketL f st in
        let st1 := fst r1 in
        let* r2 := drain_heightsL f
          (set_heap st1 (heap_set_min (rt_heap st1) (S (h_min (rt_heap st1))))) in
        Done (fst r2, snd r1 ++ snd r2)
      else Done (st, [])
  end.

Definition DrainL (fuel : nat) (st : Runtime) : outcome (Runtime * list (nat * Runtime)) :=
  let* r := drain_heightsL fuel (set_heap st (heap_set_min (rt_heap st) 0)) in
  Done (set_heap (fst r) (heap_set_max (rt_heap (fst r)) 0), snd r).
End DrainTrace.

(** A log read as a trace: the nodes passed to [process]. *)
Definition log_trace (r : Runtime * list (nat * Runtime)) : Runtime * list nat :=
  (fst r, map fst (snd r)).

Definition omap_log (o : outcome (Runtime * list (nat * Runtime))) : outcome (Runtime * list nat) :=
  let* r := o in Done (log_trace r).

(** Heap consistency: a node listed in bucket [k] has [FlagInHeap] set,
    height [k] and exists; no bucket lists a node twice. *)
Definition heap_wf (st : Runtime) : Prop :=
  (forall (k n : nat), In n (bucket (rt_heap st) k) ->
     n_inheap (node st n) = true /\ n_height (node st n) = k /\
     (n < length (rt_nodes st))%nat) /\
  (forall k : nat, NoDup (bucket (rt_heap st) k)).

(** [process] leaves the heap, the [FlagInHeap] flags, the heights and
    the arena size as they are. *)
Definition keeps_heap (process : nat -> Runtime -> outcome Runtime) : Prop :=
  forall (n : nat) s s', process n s = Done s' ->
    rt_heap s' = rt_heap s /\ length (rt_nodes s') = length (rt_nodes s) /\
    forall m : nat, n_inheap (node s' m) = n_inheap (node s m) /\
              n_height (node s' m) = n_height (node s m).

(** [process] acts on the heap as [InsertAll] of some existing nodes
    whose heights are at least the drain's current minimum, and changes
    no height and not the arena size. *)
Definition inserts_from_min (process : nat -> Runtime -> outcome Runtime) : Prop :=
  forall (n : nat) s s', process n s = Done s' ->
    exists l,
      Forall (fun m => (h_min (rt_heap s) <= n_height (node s m))%nat /\
                       (m < length (rt_nodes s))%nat) l /\
      rt_heap s' = rt_heap (InsertAll s l) /\
      length (rt_nodes s') = length (rt_nodes s) /\
      forall m : nat, n_inheap (node s' m) = n_inheap (node (InsertAll s l) m) /\
                n_height (node s' m) = n_height (node (InsertAll s l) m).

(** Compute bodies that write no signal. *)
Fixpoint no_writes (c : comp) : Prop :=
  match c with
  | CRet _ => True
  | CRead _ k => forall v, no_writes (k v)
  | CWrite _ _ _ => False
  | COut _ k => no_writes k
  end.

(** The drain's invariant: a consistent heap, buckets below [min]
    empty, buckets above [max] empty. *)
Definition Inv (st : Runtime) : Prop :=
  heap_wf st /\
  (forall k : nat, (k < h_min (rt_heap st))%nat -> bucket (rt_heap st) k = []) /\
  (forall k : nat, (h_max (rt_heap st) < k)%nat -> bucket (rt_heap st) k = []).

(** Executable checks of [heap_wf] and of the emptiness of the buckets
    above [max] ([heap_wfb_sound], [above_maxb_sound]). *)
Fixpoint nodupb (l : list nat) : bool :=
  match l with
  | [] => true
  | x :: r => negb (existsb (Nat.eqb x) r) && nodupb r
  end.

Definition heap_wfb (st : Runtime) : bool :=
  forallb (fun k =>
    let b := bucket (rt_heap st) k in
    forallb (fun n => n_inheap (node st n) && Nat.eqb (n_height (node st n)) k &&
                      Nat.ltb n (length (rt_nodes st))) b && nodupb b)
    (seq 0 (length (h_nodes (rt_heap st)))).

Definition above_maxb (st : Runtime) : bool :=
  forallb (fun k =>
    Nat.leb k (h_max (rt_heap st)) ||
    match bucket (rt_heap st) k with [] => true | _ => false end)
    (seq 0 (length (h_nodes (rt_heap st)))).

Module DrainExamples.
(** Two nodes at heights 0 and 1. *)
Definition two_nodes : Runtime :=
  set_nodes (NewRuntime 1) [with_height dflt_node 0; with_height dflt_node 1].

(** Node 1 waits in the heap; processing it inserts node 0, at a height
    below the drain's current minimum 1. *)
Definition cx_state : Runtime := Insert two_nodes 1.
Definition cx_process (n : nat) (s : Runtime) : outcome Runtime :=
  if Nat.eqb n 1 then Done (Insert s 0) else Done s.

(** Both nodes wait in the heap; [process] records the node. *)
Definition w_state : Runtime := InsertAll two_nodes [1%nat; 0%nat].
Definition w_process (n : nat) (s : Runtime) : outcome Runtime :=
  Done (set_out s (GInt (Z.of_nat n) :: rt_out s)).

Definition get_or {A} (d : A) (o : outcome A) : A :=
  match o with Done a => a | _ => d end.
Definition w_result : Runtime * list nat :=
  get_or (w_state, []) (DrainT w_process 10 w_state).
End DrainExamples.

(* ------------------------------------------------------------------ *)
(** ** Further operations *)

(** [Owner.Cleanup()]: [DisposeChildren()] (each child from
    [childrenHead], then [childrenHead = nil]) and the cleanups (then
    [cleanups = nil]); unlike [Dispose], no dispose listener runs.
    Returns the owner afterwards and the callbacks run, in order. *)
Definition Cleanup (o : OwnerTree.Owner) : OwnerTree.Owner * list nat :=
  match o with
  | OwnerTree.mkOwner cl ls ch =>
      let fix DisposeChildren (l : list OwnerTree.Owner) : list nat :=
        match l with
        | [] => []
        | c :: r => snd (OwnerTree.Dispose c) ++ DisposeChildren r
        end in
      (OwnerTree.mkOwner [] ls [], DisposeChildren ch ++ cl)
  end.

(** [Tracker.RunUntracked(fn)]: save [tracking], clear it, run [fn],
    and restore the saved flag in a deferred call (also when [fn]
    panics). *)
Definition RunUntracked (f : Runtime -> outcome Runtime) (st : Runtime) : outcome Runtime :=
  let t := rt_tracker st in
  let restore (s : Runtime) :=
    set_tracker s (mkTracker (t_tracking t) (t_executingGID (rt_tracker s))
                             (t_current (rt_tracker s))) in
  match f (set_tracker st (mkTracker false (t_executingGID t) (t_current t))) with
  | Done s => Done (restore s)
  | Failed s => Failed (restore s)
  | NoFuel => NoFuel
  end.

(** [Computed.MaxDepHeight()]: [maxHeight := 0; for dep := range
    c.Deps() { if dep.height >= maxHeight { maxHeight = dep.height + 1
    } }]. *)
Definition MaxDepHeight (st : Runtime) (c : nat) : nat :=
  fold_left (fun maxHeight d =>
      if Nat.leb maxHeight (n_height (node st d)) then (n_height (node st d) + 1)%nat
      else maxHeight)
    (n_deps (node st c)) 0%nat.

(** Each [DependencyLink] sits in the dependency list of its subscriber
    and in the subscriber list of its dependency: [a] lists [b] as a
    dependency as often as [b] lists [a] as a subscriber. *)
Definition links_mirrored (st : Runtime) : Prop :=
  forall a b : nat,
    count_occ Nat.eq_dec (n_deps (node st a)) b = count_occ Nat.eq_dec (n_subs (node st b)) a.

(** The two list updates of [Link], before the height update. *)
Definition link_lists (st : Runtime) (sub dep : nat) : Runtime :=
  modify_node (modify_node st sub (fun x => with_deps x (n_deps x ++ [dep])))
    dep (fun x => with_subs x (n_subs x ++ [sub])).

(** A batch body that leaves the batch depth as it found it, also when
    it panics. *)
Definition depth_balanced (g : Runtime -> outcome Runtime) : Prop :=
  forall s, match g s with
            | Done s' | Failed s' => rt_depth s' = rt_depth s
            | NoFuel => True
            end.

(* ================================================================== *)
(** * Properties *)

(* ------------------------------------------------------------------ *)
(** ** Arena lemmas *)

Lemma length_upd {A} (l : list A) i x : length (upd l i x) = length l.
Proof.
  revert i; induction l as [|y r IH]; intros [|i]; simpl; auto.
Qed.

Lemma nth_upd {A} (l : list A) i j x d :
  nth j (upd l i x) d =
  if Nat.eqb i j && Nat.ltb i (length l) then x else nth j l d.
Proof.
  revert i j; induction l as [|y r IH]; intros [|i] [|j]; simpl;
    rewrite ?andb_false_r; auto.
Qed.

Lemma node_modify st m f k :
  node (modify_node st m f) k =
  if Nat.eqb m k && Nat.ltb m (length (rt_nodes st)) then f (node st k) else node st k.
Proof.
  unfold node, modify_node, put_node, set_nodes; simpl.
  rewrite nth_upd. destruct (Nat.eqb_spec m k); subst; reflexivity.
Qed.

Lemma length_modify st m f :
  length (rt_nodes (modify_node st m f)) = length (rt_nodes st).
Proof. apply length_upd. Qed.

(** A field that [f] leaves alone is left alone by [modify_node]. *)
Lemma modify_field {B} (P : Node -> B) st m f k :
  (forall x, P (f x) = P x) ->
  P (node (modify_node st m f) k) = P (node st k).
Proof.
  intros H. rewrite node_modify. destruct (_ && _); auto.
Qed.

Lemma modify_node_same st m f :
  (m < length (rt_nodes st))%nat -> node (modify_node st m f) m = f (node st m).
Proof.
  intros H. rewrite node_modify, Nat.eqb_refl.
  apply Nat.ltb_lt in H. rewrite H. reflexivity.
Qed.

Lemma modify_node_other st (m : nat) f k :
  m <> k -> node (modify_node st m f) k = node st k.
Proof.
  intros H. rewrite node_modify. apply Nat.eqb_neq in H. rewrite H. reflexivity.
Qed.

(** [Link] touches dependency lists, subscriber lists and heights only. *)
Lemma Link_field {B} (P : Node -> B) st sub dep k :
  (forall x l, P (with_deps x l) = P x) ->
  (forall x l, P (with_subs x l) = P x) ->
  (forall x h, P (with_height x h) = P x) ->
  P (node (Link st sub dep) k) = P (node st k).
Proof.
  intros Hd Hs Hh. unfold Link.
  assert (Hgo : P (node
    (if Nat.leb
          (n_height (node (modify_node (modify_node st sub (fun x => with_deps x (n_deps x ++ [dep])))
             dep (fun x => with_subs x (n_subs x ++ [sub]))) sub))
          (n_height (node (modify_node (modify_node st sub (fun x => with_deps x (n_deps x ++ [dep])))
             dep (fun x => with_subs x (n_subs x ++ [sub]))) dep))
     then modify_node (modify_node (modify_node st sub (fun x => with_deps x (n_deps x ++ [dep])))
             dep (fun x => with_subs x (n_subs x ++ [sub]))) sub
           (fun x => with_height x (n_height (node (modify_node (modify_node st sub
              (fun x => with_deps x (n_deps x ++ [dep]))) dep
              (fun x => with_subs x (n_subs x ++ [sub]))) dep) + 1))
     else modify_node (modify_node st sub (fun x => with_deps x (n_deps x ++ [dep])))
             dep (fun x => with_subs x (n_subs x ++ [sub]))) k) = P (node st k)).
  { destruct (Nat.leb _ _);
      repeat (rewrite modify_field; [|intros; auto]); reflexivity. }
  destruct (last_opt _) as [d|]; [destruct (Nat.eqb d dep)|]; auto.
Qed.

Lemma Track_field {B} (P : Node -> B) g st m k :
  (forall x l, P (with_deps x l) = P x) ->
  (forall x l, P (with_subs x l) = P x) ->
  (forall x h, P (with_height x h) = P x) ->
  P (node (Track g st m) k) = P (node st k).
Proof.
  intros Hd Hs Hh. unfold Track.
  destruct (shouldTrack _ _); [|reflexivity].
  destruct (t_current _); [apply Link_field; auto | reflexivity].
Qed.

Lemma Link_length st sub dep :
  length (rt_nodes (Link st sub dep)) = length (rt_nodes st).
Proof.
  unfold Link. destruct (last_opt _) as [d|]; [destruct (Nat.eqb d dep)|];
    try reflexivity; destruct (Nat.leb _ _); rewrite ?length_modify; reflexivity.
Qed.

Lemma Track_length g st m :
  length (rt_nodes (Track g st m)) = length (rt_nodes st).
Proof.
  unfold Track. destruct (shouldTrack _ _); [|reflexivity].
  destruct (t_current _); [apply Link_length | reflexivity].
Qed.

Lemma Link_appends st sub dep :
  last_opt (n_deps (node st sub)) <> Some dep ->
  (sub < length (rt_nodes st))%nat -> (dep < length (rt_nodes st))%nat ->
  n_deps (node (Link st sub dep) sub) = n_deps (node st sub) ++ [dep] /\
  n_subs (node (Link st sub dep) dep) = n_subs (node st dep) ++ [sub].
Proof.
  intros Hl Hs Hd. unfold Link. cbv zeta.
  set (st1 := modify_node st sub (fun x => with_deps x (n_deps x ++ [dep]))).
  set (st2 := modify_node st1 dep (fun x => with_subs x (n_subs x ++ [sub]))).
  assert (E1 : n_deps (node st2 sub) = n_deps (node st sub) ++ [dep]).
  { unfold st2. rewrite (modify_field n_deps) by (intros; reflexivity).
    unfold st1. rewrite modify_node_same by assumption. reflexivity. }
  assert (E2 : n_subs (node st2 dep) = n_subs (node st dep) ++ [sub]).
  { unfold st2. rewrite modify_node_same by (unfold st1; rewrite length_modify; assumption).
    simpl. unfold st1. rewrite (modify_field n_subs) by (intros; reflexivity).
    reflexivity. }
  destruct (last_opt _) as [d|];
    [destruct (Nat.eqb_spec d dep) as [<-|_]; [congruence|]|];
    destruct (Nat.leb _ _);
    rewrite ?(modify_field n_deps), ?(modify_field n_subs) by (intros; reflexivity);
    split; assumption.
Qed.


(* ------------------------------------------------------------------ *)
(** ** C1: the commit step *)

(** C1 (code_bug).  After [setA(10)] from [a = 0] with a user effect
    printing [a()], the flush has run (the clock is 1) and the effect has
    printed the new value, yet the signal's committed value is still [0]
    and its pending slot still holds [10]: [Signal.Write] never calls
    [NodeQueue.Enqueue], so the commit step of [Flush] has nothing to
    commit. *)
Theorem Flush_leaves_write_uncommitted :
  match Programs.sig_write with
  | Done st =>
      s_clock (rt_sched st) = 1 /\ rt_out st = [GInt 0; GInt 10] /\
      rt_nodeQueue st = [] /\
      n_value (node st 0) = GInt 0 /\ n_pending (node st 0) = Some (GInt 10)
  | _ => False
  end.
Proof. vm_compute. repeat split. Qed.

(* ------------------------------------------------------------------ *)
(** ** C2: reading a signal *)

(** C2 (counterexample).  After the flush of [setA(10)], outside any
    computation (no current computation), reading [a] returns the staged
    [10], not the committed [0]. *)
Lemma Read_outside_sees_pending :
  let st := Programs.final Programs.sig_write in
  t_current (rt_tracker st) = None /\ n_pending (node st 0) = Some (GInt 10) /\
  snd (Read st 0) = GInt 10 /\ n_value (node st 0) = GInt 0.
Proof. vm_compute. repeat split. Qed.

(** C2 (amended).  [Read] returns the pending value whenever one is set
    and the committed value otherwise, inside or outside a computation;
    tracking, from any goroutine, never changes what a node reads as. *)
Theorem Read_returns_effective_value (st : Runtime) (n : nat) :
  snd (Read st n) =
    match n_pending (node st n) with Some v => v | None => n_value (node st n) end /\
  (forall g m, Value (Track g st m) n = Value st n).
Proof.
  assert (HV : forall g m, Value (Track g st m) n = Value st n).
  { intros g m. unfold Value.
    apply (Track_field (fun x => match n_pending x with Some v => v | None => n_value x end));
      intros; reflexivity. }
  split; [|exact HV].
  unfold Read. simpl. apply HV.
Qed.

(* ------------------------------------------------------------------ *)
(** ** C9: writing an equal value *)

(** C9.  Writing a value that [isEqual] finds equal to the current
    effective value returns with the runtime unchanged: nothing staged,
    no version change, no heap insertion, no scheduling.  ([isEqual] is
    Go equality on the model's values: see [isEqual_true_iff].) *)
Theorem Write_equal_is_noop (fuel : nat) (st : Runtime) (n : nat) (v : gval) :
  isEqual (Value st n) v = true -> Write (S fuel) st n v = Done st.
Proof. intros H. simpl. rewrite H. reflexivity. Qed.

Lemma Write_equal_is_noop_witness :
  isEqual (Value (Programs.final Programs.sig_write) 0) (GInt 10) = true /\
  Write 1 (Programs.final Programs.sig_write) 0 (GInt 10) =
    Done (Programs.final Programs.sig_write).
Proof.
  split.
  - vm_compute. reflexivity.
  - apply (Write_equal_is_noop 0). vm_compute. reflexivity.
Defined.

(* ------------------------------------------------------------------ *)
(** ** C5: dependency tracking *)

(** C5 (counterexample).  Inside memo [m = a()] (tracking on, [m]
    current, on the goroutine recorded as executing it), reading [a]
    again creates no link: [a] is already [m]'s most recent dependency
    and [Link] returns early. *)
Lemma Track_skips_repeated_dependency :
  shouldTrack (rt_tracker Programs.in_memo) (rt_gid Programs.in_memo) = true /\
  t_current (rt_tracker Programs.in_memo) = Some 1%nat /\
  Track (rt_gid Programs.in_memo) Programs.in_memo 0 = Programs.in_memo.
Proof. vm_compute. repeat split. Qed.

(** C5 (amended).  [Track] from goroutine [g] acts iff tracking is on, a
    computation [c] is current and [g] is the recorded executing
    goroutine; it then appends the link [n -> c] to [c]'s dependencies
    and [n]'s subscribers unless [n] is already [c]'s most recent
    dependency, in which case nothing changes.  From any other goroutine
    nothing changes. *)
Theorem Track_link_condition (g : Z) (st : Runtime) (n c : nat) :
  (shouldTrack (rt_tracker st) g = true <->
     t_tracking (rt_tracker st) = true /\ t_current (rt_tracker st) <> None /\
     g = t_executingGID (rt_tracker st)) /\
  (shouldTrack (rt_tracker st) g = false -> Track g st n = st) /\
  (g <> t_executingGID (rt_tracker st) -> Track g st n = st) /\
  (shouldTrack (rt_tracker st) g = true -> t_current (rt_tracker st) = Some c ->
     last_opt (n_deps (node st c)) = Some n -> Track g st n = st) /\
  (shouldTrack (rt_tracker st) g = true -> t_current (rt_tracker st) = Some c ->
     last_opt (n_deps (node st c)) <> Some n ->
     (c < length (rt_nodes st))%nat -> (n < length (rt_nodes st))%nat ->
     n_deps (node (Track g st n) c) = n_deps (node st c) ++ [n] /\
     n_subs (node (Track g st n) n) = n_subs (node st n) ++ [c]).
Proof.
  assert (Hiff : shouldTrack (rt_tracker st) g = true <->
     t_tracking (rt_tracker st) = true /\ t_current (rt_tracker st) <> None /\
     g = t_executingGID (rt_tracker st)).
  { unfold shouldTrack. destruct (t_current _); split.
    - intros H. apply andb_prop in H as [H1 H2]. apply Z.eqb_eq in H2.
      repeat split; auto; discriminate.
    - intros (H1 & _ & H3). rewrite H1, H3, Z.eqb_refl. reflexivity.
    - discriminate.
    - intros (_ & H & _). congruence. }
  assert (Hoff : shouldTrack (rt_tracker st) g = false -> Track g st n = st).
  { unfold Track. intros H. rewrite H. reflexivity. }
  split; [exact Hiff|]. split; [exact Hoff|]. split.
  { intros H. apply Hoff.
    destruct (Bool.bool_dec (shouldTrack (rt_tracker st) g) true) as [E|E].
    - apply Hiff in E as (_ & _ & E). contradiction.
    - apply not_true_is_false in E. exact E. }
  split.
  - intros H1 H2 H3. unfold Track. rewrite H1, H2. unfold Link.
    rewrite H3, Nat.eqb_refl. reflexivity.
  - intros H1 H2 H3 H4 H5. unfold Track. rewrite H1, H2.
    apply Link_appends; assumption.
Qed.

Lemma Track_link_condition_witness :
  Track 1 Programs.in_memo 0 = Programs.in_memo.
Proof.
  apply (proj1 (proj2 (proj2 (proj2 (Track_link_condition 1 Programs.in_memo 0 1))))).
  - vm_compute. reflexivity.
  - vm_compute. reflexivity.
  - vm_compute. reflexivity.
Defined.

(* ------------------------------------------------------------------ *)
(** ** C8: owner disposal *)

Module OwnerProps.
Import OwnerTree.

Lemma Dispose_mkOwner cl ls ch :
  Dispose (mkOwner cl ls ch) =
  (mkOwner [] ls [], concat (map (fun c => snd (Dispose c)) ch) ++ cl ++ ls).
Proof.
  simpl. f_equal. f_equal.
  induction ch as [|c r IH]; simpl; [reflexivity|]. rewrite IH. reflexivity.
Qed.

Lemma AddChild_fold cs cl ls ch :
  fold_left AddChild cs (mkOwner cl ls ch) = mkOwner cl ls (rev cs ++ ch).
Proof.
  revert ch; induction cs as [|c r IH]; intros ch; simpl; [reflexivity|].
  rewrite IH, <- app_assoc. reflexivity.
Qed.

(** C8 (counterexample).  Children [c1] (dispose listener 1) then [c2]
    (dispose listener 2) added to a parent in that order: disposing
    the parent disposes [c2] first. *)
Lemma Dispose_children_newest_first :
  snd (Dispose (AddChild (AddChild NewOwner (OnDispose NewOwner 1))
                         (OnDispose NewOwner 2))) = [2; 1]%nat.
Proof. reflexivity. Qed.

(** C8 (amended).  For an owner with cleanups [cl] and dispose
    listeners [ls] (each in registration order) to which children [cs]
    were added in that order, [Dispose] first disposes the children
    most recently added first (post-order: their own callbacks run
    before the owner's), then runs [cl] in order and clears it, then
    runs [ls] in order and keeps it, dropping the children; a second
    [Dispose] runs exactly the dispose listeners again. *)
Theorem Dispose_order (cl ls : list nat) (cs : list Owner) :
  let o := fold_left AddChild cs (mkOwner cl ls []) in
  Dispose o =
    (mkOwner [] ls [], concat (map (fun c => snd (Dispose c)) (rev cs)) ++ cl ++ ls) /\
  snd (Dispose (fst (Dispose o))) = ls.
Proof.
  simpl. rewrite AddChild_fold, app_nil_r, Dispose_mkOwner. split; [reflexivity|].
  simpl. reflexivity.
Qed.
End OwnerProps.

(* ------------------------------------------------------------------ *)
(** ** C7: batching *)

(** C7 (code_bug).  In [Programs.batch_glitch], the two writes to [a]
    inside one batch lead to one flush in which memo [x] is recomputed
    twice, and its first run reads [y]'s stale value [5] next to [a = 7]:
    printed are [7; 5] (first run) and [7; 7] (second run). *)
Theorem batch_recomputes_memo_twice :
  Programs.batch_glitch = Done [GInt 7; GInt 5; GInt 7; GInt 7].
Proof. vm_compute. reflexivity. Qed.

(* ------------------------------------------------------------------ *)
(** ** C4: the scheduler loop *)

Lemma SchedRun_resets_running body st :
  s_running (rt_sched st) = false ->
  match SchedRun body st with
  | Done (_, st') | Failed st' => s_running (rt_sched st') = false
  | NoFuel => True
  end.
Proof.
  intros H. unfold SchedRun. rewrite H.
  destruct (run_loop _ _ _ _) as [[e s]|s|]; reflexivity.
Qed.

(** With a body that always returns normally, re-arms [scheduled] and
    leaves the clock and [running] alone, the loop stops at the guard
    after [loop_limit - count] more rounds, each adding one to the
    clock. *)
Lemma run_loop_guard body :
  (forall s, exists s', body s = Done s' /\ s_scheduled (rt_sched s') = true /\
     s_clock (rt_sched s') = s_clock (rt_sched s) /\
     s_running (rt_sched s') = s_running (rt_sched s)) ->
  forall i count st,
    0 <= count <= loop_limit -> loop_limit + 1 - count <= Z.of_nat i ->
    s_scheduled (rt_sched st) = true ->
    exists st', run_loop body i count st = Done (InfiniteLoop, st') /\
      s_clock (rt_sched st') = s_clock (rt_sched st) + (loop_limit - count) /\
      s_running (rt_sched st') = s_running (rt_sched st) /\
      s_scheduled (rt_sched st') = false.
Proof.
  intros Hb i. induction i as [|i IH]; intros count st Hc Hi Hs.
  - change (Z.of_nat 0) with 0 in Hi. unfold loop_limit in *. lia.
  - cbn [run_loop]. rewrite Hs.
    destruct (Z.ltb_spec loop_limit (count + 1)).
    + exists (set_scheduled st false).
      assert (count = loop_limit) by (unfold loop_limit in *; lia). subst count.
      rewrite Z.sub_diag, Z.add_0_r. repeat split; reflexivity.
    + destruct (Hb (tick (set_scheduled st false))) as (s' & E & S1 & C1 & R1).
      rewrite E. cbn [obind].
      destruct (IH (count + 1) s') as (st' & E' & C2 & R2 & S2);
        try (unfold loop_limit in *; lia); auto.
      exists st'. rewrite E'. cbn in C1, R1. repeat split; auto.
      * rewrite C2, C1. unfold loop_limit in *. lia.
      * rewrite R2, R1. reflexivity.
Qed.

(** C4.  [Scheduler.Run(body)]: returns at once, without calling [body],
    when a run is in progress; otherwise loops while [scheduled] is set,
    clearing it and adding one to the clock before each call of [body],
    stops with [InfiniteLoop] once the round count exceeds [loop_limit]
    (100000), and leaves [running] false on every exit, normal, error or
    panic (so a [Flush] that fails leaves a usable scheduler). *)
Theorem Scheduler_Run_contract (body : Runtime -> outcome Runtime) (st : Runtime)
    (fuel : nat) :
  (s_running (rt_sched st) = true -> SchedRun body st = Done (NoErr, st)) /\
  (s_running (rt_sched st) = false ->
     match SchedRun body st with
     | Done (_, st') | Failed st' => s_running (rt_sched st') = false
     | NoFuel => True
     end) /\
  (forall i count s, s_scheduled (rt_sched s) = true -> count + 1 <= loop_limit ->
     run_loop body (S i) count s =
       let* s' := body (tick (set_scheduled s false)) in run_loop body i (count + 1) s') /\
  (forall i count s, s_scheduled (rt_sched s) = false ->
     run_loop body (S i) count s = Done (NoErr, s)) /\
  (forall i count s, s_scheduled (rt_sched s) = true -> loop_limit < count + 1 ->
     run_loop body (S i) count s = Done (InfiniteLoop, set_scheduled s false)) /\
  ((forall s, exists s', body s = Done s' /\ s_scheduled (rt_sched s') = true /\
      s_clock (rt_sched s') = s_clock (rt_sched s) /\
      s_running (rt_sched s') = s_running (rt_sched s)) ->
   s_running (rt_sched st) = false -> s_scheduled (rt_sched st) = true ->
   exists st', SchedRun body st = Done (InfiniteLoop, st') /\
     s_clock (rt_sched st') = s_clock (rt_sched st) + loop_limit /\
     s_running (rt_sched st') = false /\ s_scheduled (rt_sched st') = false) /\
  (s_running (rt_sched st) = false ->
     match Flush (S fuel) st with
     | Done st' | Failed st' => s_running (rt_sched st') = false
     | NoFuel => True
     end).
Proof.
  split; [intros H; unfold SchedRun; rewrite H; reflexivity|].
  split; [apply SchedRun_resets_running|].
  split.
  { intros i count s Hs Hc. simpl. rewrite Hs.
    destruct (Z.ltb_spec loop_limit (count + 1)); [lia|reflexivity]. }
  split; [intros i count s Hs; simpl; rewrite Hs; reflexivity|].
  split.
  { intros i count s Hs Hc. simpl. rewrite Hs.
    destruct (Z.ltb_spec loop_limit (count + 1)); [reflexivity|lia]. }
  split.
  { intros Hb Hr Hs. unfold SchedRun. rewrite Hr.
    destruct (run_loop_guard body Hb (Z.to_nat (loop_limit + 1)) 0 (set_running st true))
      as (st' & E & C & R & S1); try (unfold loop_limit; lia); [exact Hs|].
    rewrite E. exists (set_running st' false). simpl.
    repeat split; auto. }
  intros Hr. simpl.
  match goal with |- context [SchedRun ?b st] =>
    pose proof (SchedRun_resets_running b st Hr) as HR;
    destruct (SchedRun b st) as [[[|] s]| |] end; auto.
Qed.

Lemma Scheduler_Run_contract_witness :
  exists st', SchedRun (fun s => Done (SchedSchedule s)) (SchedSchedule (NewRuntime 1))
                = Done (InfiniteLoop, st') /\
    s_clock (rt_sched st') = s_clock (rt_sched (SchedSchedule (NewRuntime 1))) + loop_limit /\
    s_running (rt_sched st') = false /\ s_scheduled (rt_sched st') = false.
Proof.
  apply (Scheduler_Run_contract (fun s => Done (SchedSchedule s))
           (SchedSchedule (NewRuntime 1)) 0).
  - intros s. exists (SchedSchedule s). repeat split; reflexivity.
  - reflexivity.
  - reflexivity.
Defined.

(* ------------------------------------------------------------------ *)
(** ** C6: the drain loop *)

Module DrainProps.
Local Open Scope nat_scope.

Lemma drain_bucket_T p f st :
  drain_bucket p f st = let* r := drain_bucketT p f st in Done (fst r).
Proof.
  revert st; induction f as [|f IH]; intros st; simpl; [reflexivity|].
  destruct (bucket _ _) as [|n r]; [reflexivity|].
  destruct (p n (Remove st n)) as [s| |]; simpl; try reflexivity.
  rewrite IH. destruct (drain_bucketT p f s) as [[]| |]; reflexivity.
Qed.

Lemma drain_heights_T p f st :
  drain_heights p f st = let* r := drain_heightsT p f st in Done (fst r).
Proof.
  revert st; induction f as [|f IH]; intros st; simpl; [reflexivity|].
  destruct (Nat.leb _ _); [|reflexivity].
  rewrite drain_bucket_T. destruct (drain_bucketT p f st) as [[s tr]| |]; simpl; auto.
  rewrite IH. destruct (drain_heightsT _ _ _) as [[]| |]; reflexivity.
Qed.

Lemma Drain_DrainT p fuel st :
  Drain p fuel st = let* r := DrainT p fuel st in Done (fst r).
Proof.
  unfold Drain, DrainT. rewrite drain_heights_T.
  destruct (drain_heightsT _ _ _) as [[]| |]; reflexivity.
Qed.

Lemma bucket_set h k b j :
  bucket (heap_set_bucket h k b) j =
  if Nat.eqb k j && Nat.ltb k (length (h_nodes h)) then b else bucket h j.
Proof. unfold bucket, heap_set_bucket. simpl. apply nth_upd. Qed.

Lemma bucket_nonempty_lt h k n r :
  bucket h k = n :: r -> k < length (h_nodes h).
Proof.
  unfold bucket. intros H. destruct (Nat.lt_ge_cases k (length (h_nodes h))); auto.
  rewrite nth_overflow in H by assumption. discriminate.
Qed.

Lemma NoDup_snoc (l : list nat) m : NoDup l -> ~ In m l -> NoDup (l ++ [m]).
Proof.
  induction l as [|x r IH]; simpl; intros Hd Hn.
  - constructor; [intros []|constructor].
  - inversion Hd; subst. constructor.
    + rewrite in_app_iff. simpl. intros [H|[H|[]]]; [contradiction|]. subst. auto.
    + apply IH; auto.
Qed.

Lemma wf_transfer s s' :
  heap_wf s -> rt_heap s' = rt_heap s -> length (rt_nodes s') = length (rt_nodes s) ->
  (forall m, n_inheap (node s' m) = n_inheap (node s m) /\
             n_height (node s' m) = n_height (node s m)) ->
  heap_wf s'.
Proof.
  unfold heap_wf. intros [W1 W2] Hh Hl Hm. rewrite Hh. split; [|exact W2].
  intros k n Hin. destruct (W1 k n Hin) as (A & B & C).
  destruct (Hm n) as [E1 E2]. rewrite E1, E2, Hl. auto.
Qed.

Lemma Inv_transfer s s' :
  Inv s -> rt_heap s' = rt_heap s -> length (rt_nodes s') = length (rt_nodes s) ->
  (forall m, n_inheap (node s' m) = n_inheap (node s m) /\
             n_height (node s' m) = n_height (node s m)) ->
  Inv s'.
Proof.
  intros (W & B & A) Hh Hl Hm. split; [eapply wf_transfer; eauto|].
  rewrite Hh. auto.
Qed.

Lemma node_set_heap st h m : node (set_heap st h) m = node st m.
Proof. reflexivity. Qed.

(** Removing the first node of the current bucket. *)
Lemma Remove_head st n rest :
  heap_wf st -> bucket (rt_heap st) (h_min (rt_heap st)) = n :: rest ->
  (forall k, bucket (rt_heap (Remove st n)) k =
             if Nat.eqb (h_min (rt_heap st)) k then rest else bucket (rt_heap st) k) /\
  h_min (rt_heap (Remove st n)) = h_min (rt_heap st) /\
  h_max (rt_heap (Remove st n)) = h_max (rt_heap st) /\
  length (rt_nodes (Remove st n)) = length (rt_nodes st) /\
  (forall m, n_inheap (node (Remove st n) m) =
             if Nat.eqb n m then false else n_inheap (node st m)) /\
  (forall m, n_height (node (Remove st n) m) = n_height (node st m)).
Proof.
  intros [W1 W2] Hb.
  assert (Hn : In n (bucket (rt_heap st) (h_min (rt_heap st)))) by (rewrite Hb; left; auto).
  destruct (W1 _ _ Hn) as (Hi & Hh & Hl).
  pose proof (bucket_nonempty_lt _ _ _ _ Hb) as Hlt.
  unfold Remove. rewrite Hi. simpl negb. cbv iota.
  set (s0 := modify_node st n (fun x => with_inheap x false)).
  assert (E1 : n_height (node s0 n) = h_min (rt_heap st)).
  { unfold s0. rewrite (modify_field n_height) by reflexivity. exact Hh. }
  assert (E2 : rt_heap s0 = rt_heap st) by reflexivity.
  rewrite E1, E2, Hb. simpl remove_one. rewrite Nat.eqb_refl.
  repeat split.
  - intros k. simpl rt_heap. rewrite bucket_set.
    apply Nat.ltb_lt in Hlt. rewrite Hlt, Bool.andb_true_r. reflexivity.
  - apply length_modify.
  - intros m. rewrite node_set_heap. unfold s0.
    destruct (Nat.eqb_spec n m) as [<-|Hnm].
    + rewrite modify_node_same by exact Hl. reflexivity.
    + rewrite modify_node_other by exact Hnm. reflexivity.
  - intros m. rewrite node_set_heap. unfold s0.
    rewrite (modify_field n_height) by reflexivity. reflexivity.
Qed.

Lemma Remove_head_wf st n rest :
  heap_wf st -> bucket (rt_heap st) (h_min (rt_heap st)) = n :: rest ->
  heap_wf (Remove st n).
Proof.
  intros W Hb. pose proof W as [W1 W2].
  destruct (Remove_head st n rest W Hb) as (B & _ & _ & L & I & H).
  pose proof (W2 (h_min (rt_heap st))) as Hd. rewrite Hb in Hd.
  inversion Hd as [|? ? Hnr Hdr]; subst.
  split.
  - intros k m Hin. rewrite B in Hin. rewrite L, H, I.
    destruct (Nat.eqb_spec (h_min (rt_heap st)) k) as [<-|Hk].
    + assert (Hm : In m (bucket (rt_heap st) (h_min (rt_heap st)))) by (rewrite Hb; right; exact Hin).
      destruct (Nat.eqb_spec n m) as [<-|_]; [contradiction|]. auto.
    + destruct (W1 _ _ Hin) as (A1 & A2 & A3).
      destruct (Nat.eqb_spec n m) as [<-|_]; [|auto].
      exfalso. apply Hk.
      assert (Hn : In n (bucket (rt_heap st) (h_min (rt_heap st)))) by (rewrite Hb; left; auto).
      destruct (W1 _ _ Hn) as (_ & A4 & _).
      congruence.
  - intros k. rewrite B. destruct (Nat.eqb _ _); auto.
Qed.

(** With a [process] that keeps the heap, one bucket pass processes
    exactly the current bucket and leaves the other buckets alone. *)
Lemma bucketT_keeps p (Hp : keeps_heap p) f :
  forall st st' tr, heap_wf st -> drain_bucketT p f st = Done (st', tr) ->
    tr = bucket (rt_heap st) (h_min (rt_heap st)) /\ heap_wf st' /\
    h_min (rt_heap st') = h_min (rt_heap st) /\
    h_max (rt_heap st') = h_max (rt_heap st) /\
    (forall k, k <> h_min (rt_heap st) -> bucket (rt_heap st') k = bucket (rt_heap st) k).
Proof.
  induction f as [|f IH]; intros st st' tr W H; simpl in H; [discriminate|].
  destruct (bucket (rt_heap st) (h_min (rt_heap st))) as [|n rest] eqn:Hb.
  - inversion H; subst. auto.
  - destruct (p n (Remove st n)) as [s| |] eqn:Hp1; simpl in H; try discriminate.
    destruct (drain_bucketT p f s) as [[s2 tr2]| |] eqn:Hd; simpl in H; try discriminate.
    inversion H; subst; clear H.
    destruct (Remove_head st n rest W Hb) as (B & Mn & Mx & L & I & Hh).
    destruct (Hp _ _ _ Hp1) as (Eh & El & Em).
    assert (Ws : heap_wf s).
    { apply (wf_transfer (Remove st n) s); auto. eapply Remove_head_wf; eauto. }
    destruct (IH _ _ _ Ws Hd) as (T & W2 & Mn2 & Mx2 & B2).
    rewrite Eh in T, Mn2, Mx2, B2. rewrite Mn in T, Mn2, B2. rewrite Mx in Mx2.
    rewrite B, Nat.eqb_refl in T. subst tr2.
    split; [reflexivity|]. split; [exact W2|].
    split; [congruence|]. split; [congruence|].
    intros k Hk. rewrite B2 by exact Hk. rewrite B.
    apply Nat.eqb_neq in Hk. rewrite Nat.eqb_sym, Hk. reflexivity.
Qed.

Lemma bucket_with_min s m :
  bucket (rt_heap (set_heap s (heap_set_min (rt_heap s) m))) = bucket (rt_heap s).
Proof. reflexivity. Qed.

Lemma bucket_with_max s m :
  bucket (rt_heap (set_heap s (heap_set_max (rt_heap s) m))) = bucket (rt_heap s).
Proof. reflexivity. Qed.

Lemma wf_with_min s m : heap_wf s -> heap_wf (set_heap s (heap_set_min (rt_heap s) m)).
Proof. intros W. exact W. Qed.

(** With a [process] that keeps the heap, the height loop processes
    the buckets from [min] to [max], in that order. *)
Lemma heightsT_keeps p (Hp : keeps_heap p) f :
  forall st st' tr, heap_wf st -> drain_heightsT p f st = Done (st', tr) ->
    tr = concat (map (bucket (rt_heap st))
                     (seq (h_min (rt_heap st)) (S (h_max (rt_heap st)) - h_min (rt_heap st)))) /\
    h_max (rt_heap st') = h_max (rt_heap st).
Proof.
  induction f as [|f IH]; intros st st' tr W H; simpl in H; [discriminate|].
  destruct (Nat.leb_spec (h_min (rt_heap st)) (h_max (rt_heap st))) as [Hle|Hgt].
  - destruct (drain_bucketT p f st) as [[s1 tr1]| |] eqn:H1; simpl in H; try discriminate.
    destruct (drain_heightsT p f (set_heap s1 (heap_set_min (rt_heap s1) (S (h_min (rt_heap s1))))))
      as [[s2 tr2]| |] eqn:H2; simpl in H; try discriminate.
    inversion H; subst; clear H.
    destruct (bucketT_keeps p Hp f _ _ _ W H1) as (T1 & W1 & Mn1 & Mx1 & B1).
    destruct (IH _ _ _ (wf_with_min _ _ W1) H2) as (T2 & Mx2).
    rewrite bucket_with_min in T2.
    cbn [rt_heap set_heap heap_set_min h_min h_max] in T2, Mx2. rewrite Mn1, Mx1 in T2.
    split; [|congruence]. subst tr1 tr2.
    replace (S (h_max (rt_heap st)) - h_min (rt_heap st))
      with (S (S (h_max (rt_heap st)) - S (h_min (rt_heap st)))) by lia.
    cbn [seq map concat]. f_equal. f_equal.
    apply map_ext_in. intros k Hk. apply in_seq in Hk. apply B1. lia.
  - inversion H; subst. split; [|reflexivity].
    replace (S (h_max (rt_heap st')) - h_min (rt_heap st')) with 0 by lia. reflexivity.
Qed.

Lemma DrainT_keeps p (Hp : keeps_heap p) fuel st st' tr :
  heap_wf st -> DrainT p fuel st = Done (st', tr) ->
  tr = concat (map (bucket (rt_heap st)) (seq 0 (S (h_max (rt_heap st))))) /\
  h_max (rt_heap st') = 0.
Proof.
  intros W H. unfold DrainT in H.
  destruct (drain_heightsT p fuel (set_heap st (heap_set_min (rt_heap st) 0)))
    as [[s1 tr1]| |] eqn:H1; simpl in H; try discriminate.
  inversion H; subst; clear H.
  destruct (heightsT_keeps p Hp _ _ _ _ (wf_with_min _ _ W) H1) as (T & _).
  rewrite bucket_with_min in T.
  cbn [rt_heap set_heap heap_set_min h_min h_max] in T. rewrite Nat.sub_0_r in T.
  split; [exact T|reflexivity].
Qed.

(** Inserting a node whose height is at least [min] keeps [Inv]. *)
Lemma Insert_Inv st m :
  Inv st -> h_min (rt_heap st) <= n_height (node st m) -> m < length (rt_nodes st) ->
  Inv (Insert st m) /\ h_min (rt_heap (Insert st m)) = h_min (rt_heap st) /\
  length (rt_nodes (Insert st m)) = length (rt_nodes st) /\
  (forall j, n_height (node (Insert st m) j) = n_height (node st j)).
Proof.
  intros HI Hm Hl. pose proof HI as ((W1 & W2) & Blo & Bhi).
  unfold Insert. destruct (n_inheap (node st m)) eqn:Hi; [auto|].
  cbv iota zeta.
  remember (modify_node st m (fun x => with_inheap x true)) as s1 eqn:Es1.
  assert (E1 : forall j, n_height (node s1 j) = n_height (node st j)).
  { intros j. subst s1. apply (modify_field n_height). reflexivity. }
  assert (E2 : rt_heap s1 = rt_heap st) by (subst s1; reflexivity).
  assert (El : length (rt_nodes s1) = length (rt_nodes st)) by (subst s1; apply length_modify).
  assert (Ei : forall j, n_inheap (node s1 j) = if Nat.eqb m j then true else n_inheap (node st j)).
  { intros j. subst s1. destruct (Nat.eqb_spec m j) as [<-|Hmj].
    - rewrite modify_node_same by exact Hl. reflexivity.
    - rewrite modify_node_other by exact Hmj. reflexivity. }
  rewrite E1, E2.
  remember (n_height (node st m)) as hg eqn:Ehg.
  remember (heap_set_bucket (rt_heap st) hg (bucket (rt_heap st) hg ++ [m])) as h1 eqn:Eh1.
  assert (Hb1 : forall k, bucket h1 k =
    if Nat.eqb hg k && Nat.ltb hg (length (h_nodes (rt_heap st)))
    then bucket (rt_heap st) hg ++ [m] else bucket (rt_heap st) k).
  { intros k. subst h1. apply bucket_set. }
  assert (Mn1 : h_min h1 = h_min (rt_heap st)) by (subst h1; reflexivity).
  assert (Mx1 : h_max h1 = h_max (rt_heap st)) by (subst h1; reflexivity).
  remember (if Nat.ltb (h_max h1) hg then heap_set_max h1 hg else h1) as h2 eqn:Eh2.
  assert (Hb2 : forall k, bucket h2 k = bucket h1 k)
    by (intros k; subst h2; destruct (Nat.ltb (h_max h1) hg); reflexivity).
  assert (Mn2 : h_min h2 = h_min h1)
    by (subst h2; destruct (Nat.ltb (h_max h1) hg); reflexivity).
  assert (Mx2 : h_max h1 <= h_max h2 /\ hg <= h_max h2)
    by (subst h2; destruct (Nat.ltb_spec (h_max h1) hg); simpl; lia).
  assert (Hnot : ~ In m (bucket (rt_heap st) hg)).
  { intros Hin. destruct (W1 _ _ Hin) as (A & _). congruence. }
  assert (Old : forall k n, In n (bucket (rt_heap st) k) -> n <> m).
  { intros k n Hin ->. destruct (W1 _ _ Hin) as (A & _). congruence. }
  unfold Inv, heap_wf.
  change (rt_heap (set_heap s1 h2)) with h2.
  change (rt_nodes (set_heap s1 h2)) with (rt_nodes s1).
  change (node (set_heap s1 h2)) with (node s1).
  split; [split; [split|split]|split; [|split]].
  - intros k n Hin. rewrite Hb2, Hb1 in Hin. rewrite Ei, E1, El.
    destruct (Nat.eqb hg k && _) eqn:C.
    + apply andb_prop in C as [C _]. apply Nat.eqb_eq in C. subst k.
      apply in_app_iff in Hin as [Hin|[<-|[]]].
      * pose proof (Old _ _ Hin) as Hnm. apply not_eq_sym, Nat.eqb_neq in Hnm.
        rewrite Hnm. apply W1. exact Hin.
      * rewrite Nat.eqb_refl. auto.
    + pose proof (Old _ _ Hin) as Hnm. apply not_eq_sym, Nat.eqb_neq in Hnm.
      rewrite Hnm. apply W1. exact Hin.
  - intros k. rewrite Hb2, Hb1. destruct (_ && _); [apply NoDup_snoc; auto|auto].
  - intros k Hk. rewrite Hb2, Hb1, Mn2, Mn1 in *.
    assert (Hne : Nat.eqb hg k = false) by (apply Nat.eqb_neq; lia).
    rewrite Hne. simpl. auto.
  - intros k Hk. rewrite Hb2, Hb1.
    assert (Hne : Nat.eqb hg k = false) by (apply Nat.eqb_neq; lia).
    rewrite Hne. simpl. apply Bhi. lia.
  - congruence.
  - exact El.
  - intros j. apply E1.
Qed.

Lemma InsertAll_Inv l :
  forall st, Inv st ->
  Forall (fun m => h_min (rt_heap st) <= n_height (node st m) /\ m < length (rt_nodes st)) l ->
  Inv (InsertAll st l) /\ h_min (rt_heap (InsertAll st l)) = h_min (rt_heap st) /\
  length (rt_nodes (InsertAll st l)) = length (rt_nodes st) /\
  (forall j, n_height (node (InsertAll st l) j) = n_height (node st j)).
Proof.
  induction l as [|a l IH]; intros st HI HF; [unfold InsertAll; simpl; auto|].
  inversion HF as [|? ? [Ha1 Ha2] HF']; subst.
  destruct (Insert_Inv st a HI Ha1 Ha2) as (I1 & M1 & L1 & H1).
  change (InsertAll st (a :: l)) with (InsertAll (Insert st a) l).
  destruct (IH (Insert st a) I1) as (I2 & M2 & L2 & H2).
  - eapply Forall_impl; [|exact HF']. intros m [A B]. rewrite M1, L1, H1. auto.
  - split; [exact I2|]. split; [congruence|]. split; [congruence|].
    intros j. rewrite H2, H1. reflexivity.
Qed.

Lemma Remove_head_Inv st n rest :
  Inv st -> bucket (rt_heap st) (h_min (rt_heap st)) = n :: rest ->
  Inv (Remove st n).
Proof.
  intros (W & Blo & Bhi) Hb.
  destruct (Remove_head st n rest W Hb) as (B & Mn & Mx & _ & _ & _).
  split; [eapply Remove_head_wf; eauto|]. rewrite Mn, Mx.
  split; intros k Hk; rewrite B.
  - assert (Hne : Nat.eqb (h_min (rt_heap st)) k = false) by (apply Nat.eqb_neq; lia).
    rewrite Hne. auto.
  - destruct (Nat.eqb_spec (h_min (rt_heap st)) k) as [<-|_]; [|auto].
    rewrite Bhi in Hb by exact Hk. discriminate.
Qed.

(** With a [process] that only reinserts nodes at heights of at least
    [min], one bucket pass empties the current bucket. *)
Lemma bucketT_ins p (Hp : inserts_from_min p) f :
  forall st st' tr, Inv st -> drain_bucketT p f st = Done (st', tr) ->
    Inv st' /\ h_min (rt_heap st') = h_min (rt_heap st) /\
    bucket (rt_heap st') (h_min (rt_heap st)) = [].
Proof.
  induction f as [|f IH]; intros st st' tr HI H; simpl in H; [discriminate|].
  destruct (bucket (rt_heap st) (h_min (rt_heap st))) as [|n rest] eqn:Hb.
  - inversion H; subst. auto.
  - destruct (p n (Remove st n)) as [s| |] eqn:Hp1; simpl in H; try discriminate.
    destruct (drain_bucketT p f s) as [[s2 tr2]| |] eqn:Hd; simpl in H; try discriminate.
    inversion H; subst; clear H.
    pose proof HI as (W & _ & _).
    destruct (Remove_head st n rest W Hb) as (_ & Mn & _ & _ & _ & _).
    pose proof (Remove_head_Inv st n rest HI Hb) as IR.
    destruct (Hp _ _ _ Hp1) as (l & HF & Eh & El & Em).
    destruct (InsertAll_Inv l (Remove st n) IR HF) as (IA & MA & LA & _).
    assert (Is : Inv s).
    { apply (Inv_transfer (InsertAll (Remove st n) l) s); auto. congruence. }
    destruct (IH _ _ _ Is Hd) as (I2 & M2 & B2).
    assert (Ms : h_min (rt_heap s) = h_min (rt_heap st)) by (rewrite Eh; congruence).
    rewrite Ms in M2, B2. auto.
Qed.

Lemma heightsT_ins p (Hp : inserts_from_min p) f :
  forall st st' tr, Inv st -> drain_heightsT p f st = Done (st', tr) ->
    forall k, bucket (rt_heap st') k = [].
Proof.
  induction f as [|f IH]; intros st st' tr HI H; simpl in H; [discriminate|].
  destruct (Nat.leb_spec (h_min (rt_heap st)) (h_max (rt_heap st))) as [Hle|Hgt].
  - destruct (drain_bucketT p f st) as [[s1 tr1]| |] eqn:H1; simpl in H; try discriminate.
    destruct (drain_heightsT p f (set_heap s1 (heap_set_min (rt_heap s1) (S (h_min (rt_heap s1))))))
      as [[s2 tr2]| |] eqn:H2; simpl in H; try discriminate.
    inversion H; subst; clear H.
    destruct (bucketT_ins p Hp f _ _ _ HI H1) as ((W1 & Blo1 & Bhi1) & Mn1 & B1).
    eapply IH; [|exact H2].
    split; [exact (wf_with_min _ _ W1)|]. rewrite bucket_with_min.
    cbn [rt_heap set_heap heap_set_min h_min h_max]. split; [|exact Bhi1].
    intros k Hk. destruct (Nat.eq_dec k (h_min (rt_heap s1))) as [->|Hne].
    + rewrite Mn1. exact B1.
    + apply Blo1. lia.
  - inversion H; subst. pose proof HI as (_ & Blo & Bhi). intros k.
    destruct (Nat.lt_ge_cases k (h_min (rt_heap st'))); [apply Blo|apply Bhi]; lia.
Qed.

Lemma DrainT_ins p (Hp : inserts_from_min p) fuel st st' tr :
  heap_wf st -> (forall k, h_max (rt_heap st) < k -> bucket (rt_heap st) k = []) ->
  DrainT p fuel st = Done (st', tr) ->
  forall k, bucket (rt_heap st') k = [].
Proof.
  intros W Bhi H. unfold DrainT in H.
  destruct (drain_heightsT p fuel (set_heap st (heap_set_min (rt_heap st) 0)))
    as [[s1 tr1]| |] eqn:H1; simpl in H; try discriminate.
  inversion H; subst; clear H. intros k. rewrite bucket_with_max.
  eapply heightsT_ins; [exact Hp| |exact H1].
  split; [exact (wf_with_min _ _ W)|]. rewrite bucket_with_min.
  cbn [rt_heap set_heap heap_set_min h_min h_max]. split; [intros j Hj; lia|exact Bhi].
Qed.

Lemma nodupb_sound l : nodupb l = true -> NoDup l.
Proof.
  induction l as [|x r IH]; simpl; intros H; [constructor|].
  apply andb_prop in H as [H1 H2]. constructor; [|auto].
  intros Hin. apply Bool.negb_true_iff in H1.
  assert (existsb (Nat.eqb x) r = true)
    by (apply existsb_exists; exists x; rewrite Nat.eqb_refl; auto).
  congruence.
Qed.

Lemma heap_wfb_sound st : heap_wfb st = true -> heap_wf st.
Proof.
  unfold heap_wfb. intros H. rewrite forallb_forall in H.
  assert (Big : forall k, length (h_nodes (rt_heap st)) <= k -> bucket (rt_heap st) k = [])
    by (intros k Hk; unfold bucket; apply nth_overflow; exact Hk).
  split.
  - intros k n Hin.
    destruct (Nat.lt_ge_cases k (length (h_nodes (rt_heap st)))) as [Hk|Hk];
      [|rewrite Big in Hin by exact Hk; destruct Hin].
    assert (Hs : In k (seq 0 (length (h_nodes (rt_heap st))))) by (apply in_seq; lia).
    specialize (H k Hs). apply andb_prop in H as [H _].
    rewrite forallb_forall in H. specialize (H n Hin).
    apply andb_prop in H as [H H3]. apply andb_prop in H as [H1 H2].
    apply Nat.eqb_eq in H2. apply Nat.ltb_lt in H3. auto.
  - intros k.
    destruct (Nat.lt_ge_cases k (length (h_nodes (rt_heap st)))) as [Hk|Hk];
      [|rewrite Big by exact Hk; constructor].
    assert (Hs : In k (seq 0 (length (h_nodes (rt_heap st))))) by (apply in_seq; lia).
    specialize (H k Hs). apply andb_prop in H as [_ H]. apply nodupb_sound, H.
Qed.

Lemma above_maxb_sound st :
  above_maxb st = true -> forall k, h_max (rt_heap st) < k -> bucket (rt_heap st) k = [].
Proof.
  unfold above_maxb. intros H k Hk. rewrite forallb_forall in H.
  destruct (Nat.lt_ge_cases k (length (h_nodes (rt_heap st)))) as [Hl|Hl];
    [|unfold bucket; apply nth_overflow; exact Hl].
  assert (Hs : In k (seq 0 (length (h_nodes (rt_heap st))))) by (apply in_seq; lia).
  specialize (H k Hs). apply Bool.orb_true_iff in H as [H|H].
  - apply Nat.leb_le in H. lia.
  - destruct (bucket (rt_heap st) k); [reflexivity|discriminate].
Qed.

Lemma Insert_tails s a k :
  exists suf, bucket (rt_heap (Insert s a)) k = bucket (rt_heap s) k ++ suf.
Proof.
  unfold Insert. destruct (n_inheap (node s a)); [exists []; rewrite app_nil_r; reflexivity|].
  cbv zeta. change (rt_heap (set_heap ?x ?h)) with h.
  destruct (Nat.ltb _ _); [change (bucket (heap_set_max ?h ?m)) with (bucket h)|];
    rewrite bucket_set;
    change (rt_heap (modify_node s a (fun x => with_inheap x true))) with (rt_heap s);
    (destruct (_ && _) eqn:C;
     [apply andb_prop in C as [C _]; apply Nat.eqb_eq in C; rewrite C; exists [a]; reflexivity
     |exists []; rewrite app_nil_r; reflexivity]).
Qed.

Lemma InsertAll_tails l :
  forall s k, exists suf, bucket (rt_heap (InsertAll s l)) k = bucket (rt_heap s) k ++ suf.
Proof.
  induction l as [|a l IH]; intros s k; [exists []; rewrite app_nil_r; reflexivity|].
  change (InsertAll s (a :: l)) with (InsertAll (Insert s a) l).
  destruct (IH (Insert s a) k) as [suf2 E2]. destruct (Insert_tails s a k) as [suf1 E1].
  exists (suf1 ++ suf2). rewrite E2, E1, app_assoc. reflexivity.
Qed.

Lemma Insert_heights s a j : n_height (node (Insert s a) j) = n_height (node s j).
Proof.
  unfold Insert. destruct (n_inheap (node s a)); [reflexivity|]. cbv zeta.
  change (node (set_heap ?x ?h)) with (node x). apply (modify_field n_height). reflexivity.
Qed.

Lemma InsertAll_heights l :
  forall s j, n_height (node (InsertAll s l) j) = n_height (node s j).
Proof.
  induction l as [|a l IH]; intros s j; [reflexivity|].
  change (InsertAll s (a :: l)) with (InsertAll (Insert s a) l).
  rewrite IH. apply Insert_heights.
Qed.

Lemma Sorted_block (m : nat) l1 l2 :
  Forall (fun x => x = m) l1 -> Sorted le l2 -> Forall (fun x => m < x) l2 ->
  Sorted le (l1 ++ l2).
Proof.
  induction l1 as [|x r IH]; intros H1 H2 H3; [exact H2|].
  inversion H1 as [|? ? Hx Hr]; subst. simpl. constructor; [apply IH; auto|].
  destruct r as [|y r]; simpl.
  - destruct l2 as [|z l2]; constructor. inversion H3; subst. lia.
  - inversion Hr; subst. constructor. lia.
Qed.

(** One bucket pass of a drain whose [process] only inserts at or above
    [min]: it processes the nodes of height [min], starting with the
    bucket as it was, in bucket order; other buckets only grow at their
    tails and no height changes. *)
Lemma bucketT_order p (Hp : inserts_from_min p) f :
  forall st st' tr, Inv st -> drain_bucketT p f st = Done (st', tr) ->
    (forall j, n_height (node st' j) = n_height (node st j)) /\
    Forall (fun m => n_height (node st m) = h_min (rt_heap st)) tr /\
    (exists suf, tr = bucket (rt_heap st) (h_min (rt_heap st)) ++ suf) /\
    (forall k, k <> h_min (rt_heap st) ->
       exists suf, bucket (rt_heap st') k = bucket (rt_heap st) k ++ suf).
Proof.
  induction f as [|f IH]; intros st st' tr HI H; simpl in H; [discriminate|].
  destruct (bucket (rt_heap st) (h_min (rt_heap st))) as [|n rest] eqn:Hb.
  - inversion H; subst.
    split; [reflexivity|]. split; [constructor|].
    split; [exists []; reflexivity|]. intros k _. exists []. rewrite app_nil_r. reflexivity.
  - destruct (p n (Remove st n)) as [s| |] eqn:Hp1; simpl in H; try discriminate.
    destruct (drain_bucketT p f s) as [[s2 tr2]| |] eqn:Hd; simpl in H; try discriminate.
    inversion H; subst; clear H.
    pose proof HI as (W & _ & _).
    destruct (Remove_head st n rest W Hb) as (B & Mn & _ & _ & _ & Hh).
    pose proof (Remove_head_Inv st n rest HI Hb) as IR.
    destruct (Hp _ _ _ Hp1) as (l & HF & Eh & El & Em).
    destruct (InsertAll_Inv l (Remove st n) IR HF) as (IA & MA & LA & _).
    assert (Is : Inv s).
    { apply (Inv_transfer (InsertAll (Remove st n) l) s); auto. congruence. }
    assert (Hs : forall j, n_height (node s j) = n_height (node st j)).
    { intros j. rewrite (proj2 (Em j)), InsertAll_heights. apply Hh. }
    assert (Ms : h_min (rt_heap s) = h_min (rt_heap st)) by (rewrite Eh; congruence).
    assert (Bs : forall k, exists suf, bucket (rt_heap s) k =
                   (if Nat.eqb (h_min (rt_heap st)) k then rest else bucket (rt_heap st) k) ++ suf).
    { intros k. rewrite Eh. destruct (InsertAll_tails l (Remove st n) k) as [suf E].
      exists suf. rewrite E, B. reflexivity. }
    destruct (IH _ _ _ Is Hd) as (H2 & F2 & (suf2 & T2) & O2).
    rewrite Ms in F2, T2, O2.
    split; [intros j; rewrite H2; apply Hs|].
    split.
    { constructor.
      - assert (Hn : In n (bucket (rt_heap st) (h_min (rt_heap st)))) by (rewrite Hb; left; reflexivity).
        destruct W as [W1 _]. exact (proj1 (proj2 (W1 _ _ Hn))).
      - eapply Forall_impl; [|exact F2]. intros m Hm. rewrite <- Hs. exact Hm. }
    split.
    { destruct (Bs (h_min (rt_heap st))) as [suf1 E1]. rewrite Nat.eqb_refl in E1.
      exists (suf1 ++ suf2). rewrite T2, E1. simpl. rewrite app_assoc. reflexivity. }
    intros k Hk. destruct (O2 k Hk) as [suf2' E2]. destruct (Bs k) as [suf1 E1].
    assert (Hk' : Nat.eqb (h_min (rt_heap st)) k = false) by (apply Nat.eqb_neq; auto).
    rewrite Hk' in E1.
    exists (suf1 ++ suf2'). rewrite E2, E1, app_assoc. reflexivity.
Qed.

Lemma filter_all (g : nat -> bool) l : Forall (fun m => g m = true) l -> filter g l = l.
Proof.
  induction l as [|x r IH]; intros H; [reflexivity|].
  inversion H; subst. simpl. rewrite H2, IH by exact H3. reflexivity.
Qed.

Lemma filter_none (g : nat -> bool) l : Forall (fun m => g m = false) l -> filter g l = [].
Proof.
  induction l as [|x r IH]; intros H; [reflexivity|].
  inversion H; subst. simpl. rewrite H2. apply IH. exact H3.
Qed.

(** The height loop of such a drain processes nodes in ascending height
    order, and the nodes of each height starting with the bucket of that
    height as it was when the loop began. *)
Lemma heightsT_order p (Hp : inserts_from_min p) f :
  forall st st' tr, Inv st -> drain_heightsT p f st = Done (st', tr) ->
    (forall j, n_height (node st' j) = n_height (node st j)) /\
    Forall (fun m => h_min (rt_heap st) <= n_height (node st m)) tr /\
    Sorted le (map (fun m => n_height (node st m)) tr) /\
    (forall k, h_min (rt_heap st) <= k -> exists suf,
       filter (fun m => Nat.eqb (n_height (node st m)) k) tr = bucket (rt_heap st) k ++ suf).
Proof.
  induction f as [|f IH]; intros st st' tr HI H; simpl in H; [discriminate|].
  destruct (Nat.leb_spec (h_min (rt_heap st)) (h_max (rt_heap st))) as [Hle|Hgt].
  - destruct (drain_bucketT p f st) as [[s1 tr1]| |] eqn:H1; simpl in H; try discriminate.
    destruct (drain_heightsT p f (set_heap s1 (heap_set_min (rt_heap s1) (S (h_min (rt_heap s1))))))
      as [[s2 tr2]| |] eqn:H2; simpl in H; try discriminate.
    inversion H; subst; clear H.
    destruct (bucketT_ins p Hp f _ _ _ HI H1) as ((W1 & Blo1 & Bhi1) & Mn1 & B1).
    destruct (bucketT_order p Hp f _ _ _ HI H1) as (Hh1 & F1 & (suf1 & T1) & O1).
    set (s1' := set_heap s1 (heap_set_min (rt_heap s1) (S (h_min (rt_heap s1))))) in H2.
    assert (I1' : Inv s1').
    { split; [exact (wf_with_min _ _ W1)|]. unfold s1'. rewrite bucket_with_min.
      cbn [rt_heap set_heap heap_set_min h_min h_max]. split; [|exact Bhi1].
      intros k Hk. destruct (Nat.eq_dec k (h_min (rt_heap s1))) as [->|Hne].
      + rewrite Mn1. exact B1.
      + apply Blo1. lia. }
    destruct (IH _ _ _ I1' H2) as (Hh2 & F2 & S2 & P2).
    assert (Hs1 : forall j, n_height (node s1' j) = n_height (node st j)) by exact Hh1.
    assert (Mn' : h_min (rt_heap s1') = S (h_min (rt_heap st))) by (unfold s1'; simpl; congruence).
    rewrite Mn' in F2, P2.
    assert (F2' : Forall (fun m => S (h_min (rt_heap st)) <= n_height (node st m)) tr2)
      by (eapply Forall_impl; [|exact F2]; intros m Hm; rewrite <- Hs1; exact Hm).
    split; [intros j; rewrite Hh2; apply Hs1|].
    split.
    { apply Forall_app. split.
      - eapply Forall_impl; [|exact F1]. intros m Hm. simpl in Hm. lia.
      - eapply Forall_impl; [|exact F2']. intros m Hm. simpl in Hm. lia. }
    split.
    { rewrite map_app. apply (Sorted_block (h_min (rt_heap st))).
      - apply Forall_map. exact F1.
      - erewrite map_ext; [exact S2|]. intros m. symmetry. apply Hs1.
      - apply Forall_map. eapply Forall_impl; [|exact F2']. intros m Hm. simpl in Hm |- *. lia. }
    intros k Hk. rewrite filter_app.
    destruct (Nat.eq_dec k (h_min (rt_heap st))) as [->|Hne].
    + rewrite filter_all, filter_none.
      * exists suf1. rewrite app_nil_r. exact T1.
      * eapply Forall_impl; [|exact F2']. intros m Hm. simpl in Hm. apply Nat.eqb_neq. lia.
      * eapply Forall_impl; [|exact F1]. intros m Hm. apply Nat.eqb_eq. exact Hm.
    + rewrite (filter_none _ tr1).
      2:{ eapply Forall_impl; [|exact F1]. intros m Hm. simpl in Hm. apply Nat.eqb_neq. lia. }
      destruct (P2 k) as [suf2 E2]; [lia|].
      destruct (O1 k Hne) as [suf1' E1].
      exists (suf1' ++ suf2). simpl.
      rewrite (filter_ext (fun m => Nat.eqb (n_height (node st m)) k)
                          (fun m => Nat.eqb (n_height (node s1' m)) k))
        by (intros m; rewrite Hs1; reflexivity).
      rewrite E2. unfold s1'. rewrite bucket_with_min, E1, app_assoc. reflexivity.
  - inversion H; subst. pose proof HI as (_ & _ & Bhi).
    split; [reflexivity|]. split; [constructor|]. split; [constructor|].
    intros k Hk. exists []. rewrite Bhi by lia. reflexivity.
Qed.

Lemma DrainT_order p (Hp : inserts_from_min p) fuel st st' tr :
  heap_wf st -> (forall k, h_max (rt_heap st) < k -> bucket (rt_heap st) k = []) ->
  DrainT p fuel st = Done (st', tr) ->
  Sorted le (map (fun m => n_height (node st m)) tr) /\
  (forall k, exists suf,
     filter (fun m => Nat.eqb (n_height (node st m)) k) tr = bucket (rt_heap st) k ++ suf).
Proof.
  intros W Bhi H. unfold DrainT in H.
  destruct (drain_heightsT p fuel (set_heap st (heap_set_min (rt_heap st) 0)))
    as [[s1 tr1]| |] eqn:H1; simpl in H; try discriminate.
  inversion H; subst; clear H.
  assert (I0 : Inv (set_heap st (heap_set_min (rt_heap st) 0))).
  { split; [exact (wf_with_min _ _ W)|]. rewrite bucket_with_min.
    cbn [rt_heap set_heap heap_set_min h_min h_max]. split; [intros j Hj; lia|exact Bhi]. }
  destruct (heightsT_order p Hp _ _ _ _ I0 H1) as (_ & _ & S & P).
  split; [exact S|]. intros k. apply (P k). simpl. lia.
Qed.

Lemma bucketL_T p f st :
  drain_bucketT p f st = omap_log (drain_bucketL p f st).
Proof.
  revert st. induction f as [|f IH]; intros st; [reflexivity|]. simpl.
  destruct (bucket (rt_heap st) (h_min (rt_heap st))) as [|n rest]; [reflexivity|].
  destruct (p n (Remove st n)) as [s| |]; simpl; try reflexivity.
  rewrite IH. destruct (drain_bucketL p f s) as [[s2 l2]| |]; reflexivity.
Qed.

Lemma heightsL_T p f st :
  drain_heightsT p f st = omap_log (drain_heightsL p f st).
Proof.
  revert st. induction f as [|f IH]; intros st; [reflexivity|]. simpl.
  destruct (Nat.leb _ _); [|reflexivity].
  rewrite bucketL_T. destruct (drain_bucketL p f st) as [[s1 l1]| |]; simpl; try reflexivity.
  rewrite IH. destruct (drain_heightsL p f _) as [[s2 l2]| |]; simpl; try reflexivity.
  unfold log_trace. simpl. rewrite map_app. reflexivity.
Qed.

Lemma DrainL_T p fuel st :
  DrainT p fuel st = omap_log (DrainL p fuel st).
Proof.
  unfold DrainT, DrainL. rewrite heightsL_T.
  destruct (drain_heightsL p fuel _) as [[s l]| |]; reflexivity.
Qed.

Lemma bucketL_mem p (Hp : inserts_from_min p) f :
  forall st st' lg, Inv st -> drain_bucketL p f st = Done (st', lg) ->
    forall n s m k, In (n, s) lg -> In m (bucket (rt_heap s) k) ->
      In m (map fst lg) \/ (h_min (rt_heap st) < k /\ In m (bucket (rt_heap st') k)).
Proof.
  induction f as [|f IH]; intros st st' lg HI H; simpl in H; [discriminate|].
  destruct (bucket (rt_heap st) (h_min (rt_heap st))) as [|n0 rest] eqn:Hb.
  - inversion H; subst. intros n s m k [].
  - destruct (p n0 (Remove st n0)) as [s0| |] eqn:Hp1; simpl in H; try discriminate.
    destruct (drain_bucketL p f s0) as [[s2 l2]| |] eqn:Hd; simpl in H; try discriminate.
    inversion H; subst; clear H.
    pose proof HI as (W & _ & _).
    destruct (Remove_head st n0 rest W Hb) as (B & Mn & _ & _ & _ & Hh).
    pose proof (Remove_head_Inv st n0 rest HI Hb) as IR.
    destruct (Hp _ _ _ Hp1) as (l & HF & Eh & El & Em).
    destruct (InsertAll_Inv l (Remove st n0) IR HF) as (IA & MA & LA & _).
    assert (Is : Inv s0).
    { apply (Inv_transfer (InsertAll (Remove st n0) l) s0); auto. congruence. }
    assert (Ms : h_min (rt_heap s0) = h_min (rt_heap st)) by (rewrite Eh; congruence).
    pose proof (bucketL_T p f s0) as HT. rewrite Hd in HT. unfold omap_log, log_trace in HT. simpl in HT.
    destruct (bucketT_order p Hp f _ _ _ Is HT) as (_ & _ & (suf & T2) & O2).
    intros n s m k Hin Hm. simpl. destruct Hin as [Heq|Hin].
    + inversion Heq; subst n s; clear Heq.
      destruct (Nat.lt_trichotomy k (h_min (rt_heap st))) as [Hlt|[->|Hgt]].
      * destruct Is as (_ & Blo & _). rewrite Blo in Hm by lia. destruct Hm.
      * left. right. rewrite T2, Ms. apply in_or_app. left. exact Hm.
      * right. split; [exact Hgt|]. destruct (O2 k) as [suf' E]; [lia|].
        rewrite E. apply in_or_app. left. exact Hm.
    + destruct (IH _ _ _ Is Hd n s m k Hin Hm) as [L|[R1 R2]].
      * left. right. exact L.
      * right. rewrite <- Ms. auto.
Qed.

Lemma heightsL_mem p (Hp : inserts_from_min p) f :
  forall st st' lg, Inv st -> drain_heightsL p f st = Done (st', lg) ->
    forall n s m k, In (n, s) lg -> In m (bucket (rt_heap s) k) -> In m (map fst lg).
Proof.
  induction f as [|f IH]; intros st st' lg HI H; simpl in H; [discriminate|].
  destruct (Nat.leb_spec (h_min (rt_heap st)) (h_max (rt_heap st))) as [Hle|Hgt].
  - destruct (drain_bucketL p f st) as [[s1 l1]| |] eqn:H1; simpl in H; try discriminate.
    destruct (drain_heightsL p f (set_heap s1 (heap_set_min (rt_heap s1) (S (h_min (rt_heap s1))))))
      as [[s2 l2]| |] eqn:H2; simpl in H; try discriminate.
    inversion H; subst; clear H.
    pose proof (bucketL_T p f st) as HT1. rewrite H1 in HT1. unfold omap_log, log_trace in HT1. simpl in HT1.
    destruct (bucketT_ins p Hp f _ _ _ HI HT1) as ((W1 & Blo1 & Bhi1) & Mn1 & B1).
    destruct (bucketT_order p Hp f _ _ _ HI HT1) as (Hh1 & _ & _ & _).
    set (s1' := set_heap s1 (heap_set_min (rt_heap s1) (S (h_min (rt_heap s1))))) in H2.
    assert (I1' : Inv s1').
    { split; [exact (wf_with_min _ _ W1)|]. unfold s1'. rewrite bucket_with_min.
      cbn [rt_heap set_heap heap_set_min h_min h_max]. split; [|exact Bhi1].
      intros k Hk. destruct (Nat.eq_dec k (h_min (rt_heap s1))) as [->|Hne].
      + rewrite Mn1. exact B1.
      + apply Blo1. lia. }
    pose proof (heightsL_T p f s1') as HT2. rewrite H2 in HT2. unfold omap_log, log_trace in HT2. simpl in HT2.
    destruct (heightsT_order p Hp f _ _ _ I1' HT2) as (_ & _ & _ & P2).
    assert (Mn' : h_min (rt_heap s1') = S (h_min (rt_heap st))) by (unfold s1'; simpl; congruence).
    intros n s m k Hin Hm. rewrite map_app. apply in_or_app. apply in_app_or in Hin as [Hin|Hin].
    + destruct (bucketL_mem p Hp f _ _ _ HI H1 n s m k Hin Hm) as [L|[R1 R2]]; [left; exact L|].
      right. destruct (P2 k) as [suf E]; [lia|].
      pose proof (W1' := wf_with_min _ (S (h_min (rt_heap s1))) W1).
      assert (Hm' : In m (bucket (rt_heap s1') k)) by (unfold s1'; rewrite bucket_with_min; exact R2).
      assert (Hk : n_height (node s1' m) = k) by (destruct I1' as ((Wa & _) & _); apply (Wa k m Hm')).
      assert (Hf : In m (filter (fun x => Nat.eqb (n_height (node s1' x)) k) (map fst l2)))
        by (rewrite E; apply in_or_app; left; exact Hm').
      apply filter_In in Hf. exact (proj1 Hf).
    + right. exact (IH _ _ _ I1' H2 n s m k Hin Hm).
  - inversion H; subst. intros n s m k [].
Qed.

Lemma DrainL_mem p (Hp : inserts_from_min p) fuel st st' lg :
  heap_wf st -> (forall k, h_max (rt_heap st) < k -> bucket (rt_heap st) k = []) ->
  DrainL p fuel st = Done (st', lg) ->
  forall n s m k, In (n, s) lg -> In m (bucket (rt_heap s) k) -> In m (map fst lg).
Proof.
  intros W Bhi H. unfold DrainL in H.
  destruct (drain_heightsL p fuel (set_heap st (heap_set_min (rt_heap st) 0)))
    as [[s1 l1]| |] eqn:H1; simpl in H; try discriminate.
  inversion H; subst; clear H.
  assert (I0 : Inv (set_heap st (heap_set_min (rt_heap st) 0))).
  { split; [exact (wf_with_min _ _ W)|]. rewrite bucket_with_min.
    cbn [rt_heap set_heap heap_set_min h_min h_max]. split; [intros j Hj; lia|exact Bhi]. }
  exact (heightsL_mem p Hp _ _ _ _ I0 H1).
Qed.
(** C6 (amended). For every run of [PriorityHeap.Drain(process)] on a
    consistent heap with no entry above [max], that returns: [max] is
    0 at the end. When [process] leaves the heap alone, the nodes are
    processed bucket by bucket from height 0 to [max], each bucket in
    FIFO order (and bucket [k] holds nodes of height [k]). When
    [process] only inserts existing nodes at heights of at least the
    current minimum and changes no height: the nodes are processed in
    ascending height order; the nodes of height [k] are processed
    starting with the entries bucket [k] held at the start, in their
    order; every node that is in the heap in the state returned by any
    call of [process] is itself processed in the same drain (the log
    [DrainL] records each call with the state it returned); and every
    bucket is empty at the end. *)
Theorem Drain_contract p fuel st st' tr :
  heap_wf st ->
  (forall k, h_max (rt_heap st) < k -> bucket (rt_heap st) k = []) ->
  DrainT p fuel st = Done (st', tr) ->
  Drain p fuel st = Done st' /\ h_max (rt_heap st') = 0 /\
  (keeps_heap p ->
     tr = concat (map (bucket (rt_heap st)) (seq 0 (S (h_max (rt_heap st)))))) /\
  (inserts_from_min p ->
     Sorted le (map (fun m => n_height (node st m)) tr) /\
     (forall k, exists suf,
        filter (fun m => Nat.eqb (n_height (node st m)) k) tr = bucket (rt_heap st) k ++ suf) /\
     (exists lg, DrainL p fuel st = Done (st', lg) /\ map fst lg = tr /\
        forall n s m k, In (n, s) lg -> In m (bucket (rt_heap s) k) -> In m tr) /\
     (forall k, bucket (rt_heap st') k = [])).
Proof.
  intros W Bhi H.
  split; [rewrite Drain_DrainT, H; reflexivity|].
  split.
  - unfold DrainT in H.
    destruct (drain_heightsT p fuel (set_heap st (heap_set_min (rt_heap st) 0)))
      as [[s1 tr1]| |]; simpl in H; try discriminate.
    inversion H; subst. reflexivity.
  - split.
    + intros Hp. exact (proj1 (DrainT_keeps p Hp fuel st st' tr W H)).
    + intros Hp.
      destruct (DrainT_order p Hp fuel st st' tr W Bhi H) as [So Fi].
      split; [exact So|]. split; [exact Fi|].
      split; [|exact (DrainT_ins p Hp fuel st st' tr W Bhi H)].
      rewrite DrainL_T in H.
      destruct (DrainL p fuel st) as [[s1 lg]| |] eqn:HL; simpl in H; try discriminate.
      unfold log_trace in H. simpl in H. inversion H; subst; clear H.
      exists lg. split; [reflexivity|]. split; [reflexivity|].
      exact (DrainL_mem p Hp fuel st st' lg W Bhi HL).
Qed.

Lemma Drain_contract_witness :
  let r := DrainExamples.w_result in
  let st := DrainExamples.w_state in
  let p := DrainExamples.w_process in
  Drain p 10 st = Done (fst r) /\
  h_max (rt_heap (fst r)) = 0 /\
  (keeps_heap p ->
     snd r = concat (map (bucket (rt_heap st)) (seq 0 (S (h_max (rt_heap st)))))) /\
  (inserts_from_min p ->
     Sorted le (map (fun m => n_height (node st m)) (snd r)) /\
     (forall k, exists suf,
        filter (fun m => Nat.eqb (n_height (node st m)) k) (snd r) = bucket (rt_heap st) k ++ suf) /\
     (exists lg, DrainL p 10 st = Done (fst r, lg) /\ map fst lg = snd r /\
        forall n s m k, In (n, s) lg -> In m (bucket (rt_heap s) k) -> In m (snd r)) /\
     (forall k, bucket (rt_heap (fst r)) k = [])).
Proof.
  apply (Drain_contract DrainExamples.w_process 10 DrainExamples.w_state).
  - apply heap_wfb_sound. vm_compute. reflexivity.
  - apply above_maxb_sound. vm_compute. reflexivity.
  - vm_compute. reflexivity.
Defined.

(** C6 (counterexample). A node that [process] inserts below the
    drain's current minimum is not processed in that drain: node 1
    (height 1) is processed, it inserts node 0 (height 0 < 1), and the
    drain returns with node 0 still in bucket 0. *)
Lemma Drain_misses_insert_below_min :
  match DrainT DrainExamples.cx_process 10 DrainExamples.cx_state,
        Drain DrainExamples.cx_process 10 DrainExamples.cx_state with
  | Done (s, tr), Done s' =>
      tr = [1] /\ s' = s /\
      n_height (node DrainExamples.cx_state 0) = 0 /\
      n_height (node DrainExamples.cx_state 1) = 1 /\
      bucket (rt_heap s) 0 = [0] /\ n_inheap (node s 0) = true
  | _, _ => False
  end.
Proof. vm_compute. repeat split. Qed.
End DrainProps.

(* ------------------------------------------------------------------ *)
(** ** C10: creating a memo *)

Module ComputedProps.

Lemma Link_rest st sub dep :
  rt_sched (Link st sub dep) = rt_sched st /\ rt_out (Link st sub dep) = rt_out st /\
  rt_tracker (Link st sub dep) = rt_tracker st /\ rt_heap (Link st sub dep) = rt_heap st.
Proof.
  unfold Link. cbv zeta. destruct (last_opt _) as [d|]; [destruct (Nat.eqb d dep)|];
    try (destruct (Nat.leb _ _)); repeat split.
Qed.

Lemma Track_rest g st m :
  rt_sched (Track g st m) = rt_sched st /\ rt_out (Track g st m) = rt_out st /\
  rt_tracker (Track g st m) = rt_tracker st /\ rt_heap (Track g st m) = rt_heap st.
Proof.
  unfold Track. destruct (shouldTrack _ _); [|repeat split].
  destruct (t_current _); [apply Link_rest|repeat split].
Qed.

Lemma exec_no_writes fuel :
  forall s c, no_writes c ->
  match exec fuel s c with
  | Done (s', _) =>
      rt_sched s' = rt_sched s /\ rt_tracker s' = rt_tracker s /\
      length (rt_nodes s') = length (rt_nodes s)
  | Failed _ => False
  | NoFuel => True
  end.
Proof.
  induction fuel as [|f IH]; intros s c Hc; [exact I|].
  destruct c as [v|n k|n v k|v k]; simpl in Hc |- *.
  - auto.
  - destruct (Read s n) as [s1 v1] eqn:ER.
    unfold Read in ER. inversion ER; subst; clear ER.
    pose proof (IH (Track (rt_gid s) s n) (k (Value (Track (rt_gid s) s n) n)) (Hc _)) as H.
    destruct (exec f _ _) as [[s' w]| |]; auto.
    destruct (Track_rest (rt_gid s) s n) as (A & _ & C & _).
    rewrite Track_length in H. destruct H as (H1 & H2 & H3). rewrite A, C in *. auto.
  - destruct Hc.
  - pose proof (IH (set_out s (rt_out s ++ [v])) k Hc) as H.
    destruct (exec f _ _) as [[s' w]| |]; auto.
Qed.

Lemma InsertAll_rest l :
  forall s, rt_out (InsertAll s l) = rt_out s /\ rt_sched (InsertAll s l) = rt_sched s /\
  length (rt_nodes (InsertAll s l)) = length (rt_nodes s) /\
  forall m, n_pending (node (InsertAll s l) m) = n_pending (node s m).
Proof.
  induction l as [|a l IH]; intros s; [unfold InsertAll; simpl; auto|].
  change (InsertAll s (a :: l)) with (InsertAll (Insert s a) l).
  destruct (IH (Insert s a)) as (A & B & C & D).
  rewrite A, B, C. setoid_rewrite D.
  unfold Insert. destruct (n_inheap (node s a)); [auto|].
  cbv zeta. repeat split; [apply length_modify|].
  intros m. change (node (set_heap ?x ?h) m) with (node x m).
  apply (modify_field n_pending). reflexivity.
Qed.

(** C10 (amended). [NewComputed(compute)] for a compute body that
    writes no signal runs the body exactly once, synchronously: there is
    one state [pre] (the new memo [n] current, on the caller's output
    and scheduler) such that [NewComputed] returns exactly when the one
    run [exec pre compute] does, returns [n], has printed only what that
    run printed, has left the scheduler as it was (no flush), and has
    staged the run's result [v] as [n]'s pending value, so that [n]'s
    effective value is [v]. *)
Theorem NewComputed_runs_compute_once fuel st c :
  no_writes c ->
  exists pre,
    rt_out pre = rt_out st /\ rt_sched pre = rt_sched st /\
    t_current (rt_tracker pre) = Some (length (rt_nodes st)) /\
    length (rt_nodes pre) = S (length (rt_nodes st)) /\
    match exec fuel pre c, NewComputed (S (S (S fuel))) st c with
    | Done (s, v), Done (st', m) =>
        m = length (rt_nodes st) /\ rt_out st' = rt_out s /\
        n_pending (node st' m) = Some v /\ Value st' m = v /\
        rt_sched st' = rt_sched st
    | NoFuel, NoFuel => True
    | _, _ => False
    end.
Proof.
  intros Hc.
  remember (NewComputed (S (S (S fuel))) st c) as R eqn:ER.
  unfold NewComputed, alloc in ER. cbv beta iota zeta in ER.
  set (x := mkNode GNil None 0 false 0 [] [] false FnRun c) in ER.
  set (n := length (rt_nodes st)) in ER |- *.
  set (st1 := set_nodes st (rt_nodes st ++ [x])) in ER.
  assert (N1 : node st1 n = x).
  { unfold node, st1, n. simpl. rewrite nth_middle. reflexivity. }
  assert (L1 : length (rt_nodes st1) = S n).
  { unfold st1, n. simpl. rewrite length_app. simpl. lia. }
  assert (CD : ClearDeps st1 n = modify_node st1 n (fun x => with_deps x [])).
  { unfold ClearDeps. rewrite N1. reflexivity. }
  cbn [recompute] in ER. rewrite N1 in ER. cbn [n_fn x] in ER.
  unfold RunWithComputation in ER. cbn [runFn ComputedRun] in ER.
  rewrite CD in ER.
  set (s1 := modify_node st1 n (fun x => with_deps x [])) in ER.
  set (s2 := modify_node s1 n (fun x => with_version x (s_clock (rt_sched s1)))) in ER.
  set (s3 := set_tracker s2 (mkTracker (t_tracking (rt_tracker s2)) (rt_gid s2) (Some n))) in ER.
  assert (L3 : length (rt_nodes s3) = S n).
  { unfold s3. change (rt_nodes (set_tracker ?a ?b)) with (rt_nodes a).
    unfold s2, s1. rewrite !length_modify. exact L1. }
  assert (I3 : n_initialized (node s3 n) = false).
  { unfold s3. change (node (set_tracker ?a ?b)) with (node a). unfold s2, s1.
    rewrite !(modify_field n_initialized) by reflexivity. rewrite N1. reflexivity. }
  rewrite I3 in ER.
  set (pre := modify_node s3 n (fun x => with_initialized x true)) in ER.
  assert (C3 : n_compute (node pre n) = c).
  { unfold pre. rewrite (modify_field n_compute) by reflexivity.
    unfold s3. change (node (set_tracker ?a ?b)) with (node a). unfold s2, s1.
    rewrite !(modify_field n_compute) by reflexivity. rewrite N1. reflexivity. }
  rewrite C3 in ER.
  assert (Lp : length (rt_nodes pre) = S n) by (unfold pre; rewrite length_modify; exact L3).
  assert (V1 : Value st1 n = GNil) by (unfold Value; rewrite N1; reflexivity).
  rewrite V1 in ER.
  exists pre. split; [reflexivity|]. split; [reflexivity|]. split; [reflexivity|].
  split; [exact Lp|].
  pose proof (exec_no_writes fuel pre c Hc) as HX.
  destruct (exec fuel pre c) as [[s v]| |]; cbn [obind] in ER; [|destruct HX|subst R; exact I].
  destruct HX as (XS & XT & XL).
  set (s4 := modify_node s n (fun x => with_pending x (Some v))) in ER.
  set (s5 := set_tracker s4 (set_tracking_current (rt_tracker s4) (t_current (rt_tracker s2)))) in ER.
  assert (P5 : n_pending (node s5 n) = Some v).
  { unfold s5. change (node (set_tracker ?a ?b)) with (node a). unfold s4.
    rewrite modify_node_same by lia. reflexivity. }
  assert (V5 : Value s5 n = v) by (unfold Value; rewrite P5; reflexivity).
  assert (O5 : rt_out s5 = rt_out s) by reflexivity.
  assert (S5 : rt_sched s5 = rt_sched st).
  { change (rt_sched s5) with (rt_sched s). rewrite XS. reflexivity. }
  rewrite V5 in ER.
  destruct (isEqual GNil v); simpl in ER; subst R.
  - auto.
  - destruct (InsertAll_rest (n_subs (node s5 n)) s5) as (A & B & _ & D).
    unfold Value. rewrite D, P5, A, B. auto.
Qed.

Lemma NewComputed_runs_compute_once_witness :
  exists pre,
    rt_out pre = rt_out (fst (NewSignal (NewRuntime 1) (GInt 0))) /\
    rt_sched pre = rt_sched (fst (NewSignal (NewRuntime 1) (GInt 0))) /\
    t_current (rt_tracker pre) =
      Some (length (rt_nodes (fst (NewSignal (NewRuntime 1) (GInt 0))))) /\
    length (rt_nodes pre) =
      S (length (rt_nodes (fst (NewSignal (NewRuntime 1) (GInt 0))))) /\
    match exec 10 pre (CRead 0 (fun v => COut v (CRet v))),
          NewComputed 13 (fst (NewSignal (NewRuntime 1) (GInt 0)))
            (CRead 0 (fun v => COut v (CRet v))) with
    | Done (s, v), Done (st', m) =>
        m = length (rt_nodes (fst (NewSignal (NewRuntime 1) (GInt 0)))) /\
        rt_out st' = rt_out s /\ n_pending (node st' m) = Some v /\
        Value st' m = v /\
        rt_sched st' = rt_sched (fst (NewSignal (NewRuntime 1) (GInt 0)))
    | NoFuel, NoFuel => True
    | _, _ => False
    end.
Proof.
  apply (NewComputed_runs_compute_once 10 (fst (NewSignal (NewRuntime 1) (GInt 0)))
           (CRead 0 (fun v => COut v (CRet v)))).
  simpl. intros v. exact I.
Defined.

(** C10 (counterexample). A compute body that writes a signal it reads
    runs twice before [NewComputed] returns: [s = 0]; the memo reads
    [s], prints it and writes [s = 1]; the write flushes (the clock
    moves to 1) and the flush re-runs the compute, which prints 1, while
    the first run is still going; the first run then stages its stale
    result 0, while [s] is 1. *)
Lemma NewComputed_self_write_runs_twice :
  match Programs.self_writing with
  | Done (st, m) =>
      rt_out st = [GInt 0; GInt 1] /\ Value st m = GInt 0 /\
      Value st 0%nat = GInt 1 /\ s_clock (rt_sched st) = 1
  | _ => False
  end.
Proof. vm_compute. repeat split. Qed.
End ComputedProps.

(* ------------------------------------------------------------------ *)
(** ** C3: the diamond *)

Module DiamondProps.

Lemma if_same {A} (b : bool) (x : A) : (if b then x else x) = x.
Proof. destruct b; reflexivity. Qed.

(** The fuel [Scheduler.Run] grants, one round at a time. *)
Lemma loop_fuel_1 : Z.to_nat 100001 = S (Z.to_nat 100000).
Proof. reflexivity. Qed.
Lemma loop_fuel_2 : Z.to_nat 100000 = S (Z.to_nat 99999).
Proof. reflexivity. Qed.

(** One-step unfolding equations of the runtime's recursive functions
    (their right-hand sides are the functions' bodies). *)
Lemma exec_S f st c :
  exec (S f) st c = ltac:(let t := eval cbn [exec] in (exec (S f) st c) in exact t).
Proof. reflexivity. Qed.
Lemma Write_S f st n v :
  Write (S f) st n v = ltac:(let t := eval cbn [Write] in (Write (S f) st n v) in exact t).
Proof. reflexivity. Qed.
Lemma Schedule_S f st b :
  Schedule (S f) st b = ltac:(let t := eval cbn [Schedule] in (Schedule (S f) st b) in exact t).
Proof. reflexivity. Qed.
Lemma Flush_S f st :
  Flush (S f) st = ltac:(let t := eval cbn [Flush] in (Flush (S f) st) in exact t).
Proof. reflexivity. Qed.
Lemma recompute_S f n st :
  recompute (S f) n st = ltac:(let t := eval cbn [recompute] in (recompute (S f) n st) in exact t).
Proof. reflexivity. Qed.
Lemma runFn_S f k n st :
  runFn (S f) k n st = ltac:(let t := eval cbn [runFn] in (runFn (S f) k n st) in exact t).
Proof. reflexivity. Qed.
Lemma ComputedRun_S f n st :
  ComputedRun (S f) n st = ltac:(let t := eval cbn [ComputedRun] in (ComputedRun (S f) n st) in exact t).
Proof. reflexivity. Qed.
Lemma RunEffects_S f t st :
  RunEffects (S f) t st = ltac:(let r := eval cbn [RunEffects] in (RunEffects (S f) t st) in exact r).
Proof. reflexivity. Qed.
Lemma RunClosures_S f l st :
  RunClosures (S f) l st = ltac:(let t := eval cbn [RunClosures] in (RunClosures (S f) l st) in exact t).
Proof. reflexivity. Qed.
Lemma drain_bucket_S p f st :
  drain_bucket p (S f) st = ltac:(let t := eval cbn [drain_bucket] in (drain_bucket p (S f) st) in exact t).
Proof. reflexivity. Qed.
Lemma drain_heights_S p f st :
  drain_heights p (S f) st = ltac:(let t := eval cbn [drain_heights] in (drain_heights p (S f) st) in exact t).
Proof. reflexivity. Qed.
Lemma run_loop_S b i c st :
  run_loop b (S i) c st = ltac:(let t := eval cbn [run_loop] in (run_loop b (S i) c st) in exact t).
Proof. reflexivity. Qed.

(** Symbolic evaluation of a run whose values are not known: data
    functions are computed, the recursive functions are unfolded one
    call at a time, and each [isEqual] test that decides the path is
    split on. *)
Ltac data := lazy -[isEqual exec Write Schedule Flush recompute runFn ComputedRun
  RunEffects RunClosures drain_bucket drain_heights run_loop Z.to_nat].
Ltac step1 := first [ rewrite exec_S | rewrite Write_S | rewrite Schedule_S
  | rewrite Flush_S | rewrite recompute_S | rewrite runFn_S | rewrite ComputedRun_S
  | rewrite RunEffects_S | rewrite RunClosures_S | rewrite drain_bucket_S
  | rewrite drain_heights_S | rewrite run_loop_S | rewrite loop_fuel_1
  | rewrite loop_fuel_2 ].
Ltac split_eq := match goal with |- context [isEqual ?u ?v] =>
  let E := fresh "E" in destruct (isEqual u v) eqn:E end.
Ltac stage_nc :=
  match goal with |- context [NewComputed ?F ?s ?c] =>
    let r := eval lazy -[isEqual NewHeap] in (NewComputed F s c) in
    change (NewComputed F s c) with r; rewrite ?if_same end;
  lazy beta iota zeta delta [obind].

(** C3 (amended). After [setA(x)] on the diamond [a -> b], [a -> c],
    [{b, c} -> d] ([b = f(a)], [c = g(a)], [d = h(b, c)]) with an
    effect subscribed to [d]: [d] runs at most once, and only when [x]
    differs from the old value of [a] and [b] or [c] changed; that
    one run reads [b(x), c(x)] (printed by [d]), and the effect then
    observes [h(b(x), c(x))], when it differs from [d]'s old value;
    no value computed from new and stale inputs is ever printed. *)
Theorem diamond_runs_d_at_most_once f g h a0 x :
  Programs.diamond f g h a0 x =
  Done (if isEqual a0 x then []
        else if isEqual (f a0) (f x) && isEqual (g a0) (g x) then []
        else [f x; g x] ++
             (if isEqual (h (f a0) (g a0)) (h (f x) (g x)) then []
              else [h (f x) (g x)])).
Proof.
  unfold Programs.diamond, NewSignal, alloc. lazy beta iota zeta delta [obind].
  stage_nc. stage_nc. stage_nc. unfold NewEffect. stage_nc.
  change NewHeap with (mkHeap 0 0 ([] :: [] :: [] :: [] :: [] :: [] :: repeat [] 1994)).
  remember (repeat (@nil nat) 1994) as T eqn:HT.
  data.
  repeat (first [step1; data; rewrite ?if_same | split_eq]).
  all: reflexivity.
Qed.

(** C3 (counterexample). With [b = 0 * a] and [c = 0 * a], [setA(10)]
    from [a = 0] leaves [b] and [c] equal: [d] does not recompute at all
    (nothing is printed), instead of exactly once. *)
Lemma diamond_d_not_recomputed :
  Programs.diamond (Programs.gmul 0) (Programs.gmul 0) Programs.gadd (GInt 0) (GInt 10)
  = Done [].
Proof. vm_compute. reflexivity. Qed.
End DiamondProps.

(* ------------------------------------------------------------------ *)
(** ** Further properties of the runtime *)

Lemma Commit_Value st n m : Value (Commit st n) m = Value st m.
Proof.
  unfold Commit, Value. destruct (n_pending (node st n)) as [v|] eqn:E; [|reflexivity].
  rewrite node_modify. destruct (Nat.eqb_spec n m) as [<-|]; simpl; [|reflexivity].
  destruct (Nat.ltb _ _); simpl; [|reflexivity]. rewrite E. reflexivity.
Qed.

Lemma Commit_other st n m : n <> m -> node (Commit st n) m = node st m.
Proof.
  intros H. unfold Commit. destruct (n_pending _); [|reflexivity].
  apply modify_node_other. exact H.
Qed.

Lemma Commit_pending st n :
  (n < length (rt_nodes st))%nat -> n_pending (node (Commit st n) n) = None.
Proof.
  intros H. unfold Commit. destruct (n_pending (node st n)) eqn:E; [|exact E].
  rewrite modify_node_same by exact H. reflexivity.
Qed.

Lemma Commit_length st n : length (rt_nodes (Commit st n)) = length (rt_nodes st).
Proof. unfold Commit. destruct (n_pending _); [apply length_modify|reflexivity]. Qed.

Lemma Commit_rest st n :
  rt_heap (Commit st n) = rt_heap st /\ rt_tracker (Commit st n) = rt_tracker st /\
  rt_sched (Commit st n) = rt_sched st /\ rt_out (Commit st n) = rt_out st /\
  rt_nodeQueue (Commit st n) = rt_nodeQueue st.
Proof. unfold Commit. destruct (n_pending _); repeat split. Qed.

(** X1.  [Signal.Commit] moves the pending value into the committed one
    without changing what [Value()] returns for any node; it empties the
    pending slot of an existing node, touches no other node, and a second
    commit does nothing. *)
Theorem Commit_keeps_value st n :
  (forall m, Value (Commit st n) m = Value st m) /\
  ((n < length (rt_nodes st))%nat -> n_pending (node (Commit st n) n) = None) /\
  (forall m, n <> m -> node (Commit st n) m = node st m) /\
  Commit (Commit st n) n = Commit st n.
Proof.
  split; [apply Commit_Value|]. split; [apply Commit_pending|].
  split; [apply Commit_other|].
  unfold Commit at 1. destruct (Nat.ltb_spec n (length (rt_nodes st))) as [H|H].
  - rewrite Commit_pending by exact H. reflexivity.
  - unfold Commit. destruct (n_pending (node st n)) eqn:E; [|rewrite E; reflexivity].
    assert (Hn : node (modify_node st n (fun x => with_pending (with_value x g) None)) n = node st n).
    { rewrite node_modify. apply Nat.ltb_ge in H. rewrite H, andb_false_r. reflexivity. }
    rewrite Hn, E. unfold modify_node, put_node, set_nodes, node. simpl.
    f_equal. revert H. generalize (rt_nodes st) n.
    induction l as [|y r IH]; intros [|i] Hi; simpl in *; try lia; auto.
    f_equal. apply IH. lia.
Qed.

Lemma fold_Commit_facts q :
  forall st,
    (forall m, Value (fold_left Commit q st) m = Value st m) /\
    (forall m, ~ In m q -> node (fold_left Commit q st) m = node st m) /\
    (forall m, In m q -> (m < length (rt_nodes st))%nat ->
               n_pending (node (fold_left Commit q st) m) = None) /\
    length (rt_nodes (fold_left Commit q st)) = length (rt_nodes st) /\
    rt_heap (fold_left Commit q st) = rt_heap st /\
    rt_tracker (fold_left Commit q st) = rt_tracker st /\
    rt_sched (fold_left Commit q st) = rt_sched st /\
    rt_out (fold_left Commit q st) = rt_out st.
Proof.
  induction q as [|a q IH]; intros st; simpl.
  - repeat split; auto. intros m [].
  - destruct (IH (Commit st a)) as (V & O & P & L & H & T & S & Ou).
    destruct (Commit_rest st a) as (H1 & T1 & S1 & O1 & _).
    rewrite Commit_length in *. rewrite H1, T1, S1, O1 in *.
    repeat split; auto.
    + intros m. rewrite V. apply Commit_Value.
    + intros m Hm. rewrite O by tauto. apply Commit_other. tauto.
    + intros m [<-|Hm] Hl.
      * destruct (in_dec Nat.eq_dec a q) as [Hq|Hq]; [apply P; auto|].
        rewrite O by exact Hq. apply Commit_pending. exact Hl.
      * apply P; auto.
Qed.

(** X2.  [NodeQueue.Commit] empties the queue and leaves every [Value()]
    unchanged; every queued node of the arena ends with no pending value
    and its committed value equal to its former [Value()]; nodes not in
    the queue are untouched. *)
Theorem NodeQueueCommit_commits_queue st :
  let st' := NodeQueueCommit st in
  rt_nodeQueue st' = [] /\
  (forall m, Value st' m = Value st m) /\
  (forall m, In m (rt_nodeQueue st) -> (m < length (rt_nodes st))%nat ->
             n_pending (node st' m) = None /\ n_value (node st' m) = Value st m) /\
  (forall m, ~ In m (rt_nodeQueue st) -> node st' m = node st m).
Proof.
  cbv zeta. unfold NodeQueueCommit.
  destruct (fold_Commit_facts (rt_nodeQueue st) st) as (V & O & P & _).
  change (node (set_nodeQueue ?a ?q)) with (node a).
  split; [reflexivity|]. split; [exact V|]. split; [|exact O].
  intros m Hm Hl. pose proof (P m Hm Hl) as Hp. split; [exact Hp|].
  rewrite <- (V m). unfold Value. change (node (set_nodeQueue ?a ?q)) with (node a).
  rewrite Hp. reflexivity.
Qed.

Module CleanupProps.
Import OwnerTree OwnerProps.

Lemma Cleanup_mkOwner cl ls ch :
  Cleanup (mkOwner cl ls ch) =
  (mkOwner [] ls [], concat (map (fun c => snd (Dispose c)) ch) ++ cl).
Proof.
  simpl. f_equal. f_equal.
  induction ch as [|c r IH]; simpl; [reflexivity|]. rewrite IH. reflexivity.
Qed.

(** X3.  [Owner.Cleanup()] on an owner with children added by
    [AddChild]: the children are disposed newest first, then the cleanups
    run in registration order; no dispose listener runs.  Afterwards a
    second [Cleanup] runs nothing, and a [Dispose] runs exactly the dispose
    listeners. *)
Theorem Cleanup_order (cl ls : list nat) (cs : list Owner) :
  let o := fold_left AddChild cs (mkOwner cl ls []) in
  Cleanup o =
    (mkOwner [] ls [], concat (map (fun c => snd (Dispose c)) (rev cs)) ++ cl) /\
  snd (Cleanup (fst (Cleanup o))) = [] /\
  snd (Dispose (fst (Cleanup o))) = ls.
Proof.
  simpl. rewrite AddChild_fold, app_nil_r, Cleanup_mkOwner.
  split; [reflexivity|split; reflexivity].
Qed.
End CleanupProps.

Module HeightProps.
Local Open Scope nat_scope.

Lemma MaxDepHeight_fold st l :
  forall m0,
    (forall d, In d l -> n_height (node st d) < fold_left (fun maxHeight d =>
      if Nat.leb maxHeight (n_height (node st d)) then n_height (node st d) + 1
      else maxHeight) l m0) /\
    m0 <= fold_left (fun maxHeight d =>
      if Nat.leb maxHeight (n_height (node st d)) then n_height (node st d) + 1
      else maxHeight) l m0 /\
    (fold_left (fun maxHeight d =>
      if Nat.leb maxHeight (n_height (node st d)) then n_height (node st d) + 1
      else maxHeight) l m0 = m0 \/
     exists d, In d l /\ fold_left (fun maxHeight d =>
      if Nat.leb maxHeight (n_height (node st d)) then n_height (node st d) + 1
      else maxHeight) l m0 = n_height (node st d) + 1).
Proof.
  induction l as [|a l IH]; intros m0; simpl.
  - split; [intros d []|]. split; [lia|]. left; reflexivity.
  - set (m1 := if Nat.leb m0 (n_height (node st a)) then n_height (node st a) + 1 else m0).
    destruct (IH m1) as (A & B & C).
    assert (Ha : n_height (node st a) < m1 /\ m0 <= m1).
    { unfold m1. destruct (Nat.leb_spec m0 (n_height (node st a))); lia. }
    split; [|split].
    + intros d [<-|Hd]; [lia|]. apply A. exact Hd.
    + lia.
    + destruct C as [C|(d & Hd & C)].
      * unfold m1 in C. destruct (Nat.leb_spec m0 (n_height (node st a))).
        -- right. exists a. split; [left; reflexivity|]. exact C.
        -- left. exact C.
      * right. exists d. split; [right; exact Hd|exact C].
Qed.

(** X4.  [Computed.MaxDepHeight()] is strictly above the height of every
    dependency; it is [0] without dependencies and otherwise one more than
    the height of some dependency. *)
Theorem MaxDepHeight_spec st c :
  (forall d, In d (n_deps (node st c)) -> n_height (node st d) < MaxDepHeight st c) /\
  ((n_deps (node st c) = [] /\ MaxDepHeight st c = 0) \/
   exists d, In d (n_deps (node st c)) /\ MaxDepHeight st c = n_height (node st d) + 1).
Proof.
  unfold MaxDepHeight. destruct (MaxDepHeight_fold st (n_deps (node st c)) 0) as (A & _ & C).
  split; [exact A|].
  destruct (n_deps (node st c)) as [|d0 l] eqn:E; [left; split; reflexivity|].
  right. destruct C as [C|C]; [|exact C].
  exfalso. specialize (A d0 (or_introl eq_refl)). lia.
Qed.

End HeightProps.

Module LinkProps.
Local Open Scope nat_scope.


Lemma Link_unfold st sub dep :
  Link st sub dep =
  match last_opt (n_deps (node st sub)) with
  | Some d => if Nat.eqb d dep then st else
      if Nat.leb (n_height (node (link_lists st sub dep) sub)) (n_height (node (link_lists st sub dep) dep))
      then modify_node (link_lists st sub dep) sub
             (fun x => with_height x (n_height (node (link_lists st sub dep) dep) + 1))
      else link_lists st sub dep
  | None =>
      if Nat.leb (n_height (node (link_lists st sub dep) sub)) (n_height (node (link_lists st sub dep) dep))
      then modify_node (link_lists st sub dep) sub
             (fun x => with_height x (n_height (node (link_lists st sub dep) dep) + 1))
      else link_lists st sub dep
  end.
Proof. reflexivity. Qed.

Lemma link_lists_height st sub dep m :
  n_height (node (link_lists st sub dep) m) = n_height (node st m).
Proof.
  unfold link_lists. rewrite !(modify_field n_height) by (intros; reflexivity). reflexivity.
Qed.

Lemma link_lists_length st sub dep :
  length (rt_nodes (link_lists st sub dep)) = length (rt_nodes st).
Proof. unfold link_lists. rewrite !length_modify. reflexivity. Qed.

(** The body of [Link] once it decides to link. *)
Lemma link_go_heights st sub dep :
  let s2 := link_lists st sub dep in
  let r := if Nat.leb (n_height (node s2 sub)) (n_height (node s2 dep))
           then modify_node s2 sub (fun x => with_height x (n_height (node s2 dep) + 1))
           else s2 in
  (forall m, n_height (node st m) <= n_height (node r m)) /\
  (sub < length (rt_nodes st) -> sub <> dep ->
     n_height (node r dep) = n_height (node st dep) /\
     n_height (node r dep) < n_height (node r sub)).
Proof.
  cbv zeta. rewrite !link_lists_height.
  destruct (Nat.leb_spec (n_height (node st sub)) (n_height (node st dep))) as [Hle|Hlt].
  - split.
    + intros m. rewrite node_modify.
      destruct (Nat.eqb_spec sub m) as [<-|]; simpl; [|rewrite link_lists_height; lia].
      destruct (Nat.ltb _ _); simpl; rewrite ?link_lists_height; lia.
    + intros Hs Hne. rewrite modify_node_other by exact Hne. rewrite link_lists_height.
      rewrite modify_node_same by (rewrite link_lists_length; exact Hs). simpl. lia.
  - split.
    + intros m. rewrite link_lists_height. lia.
    + intros _ _. rewrite !link_lists_height. lia.
Qed.

(** X5.  [Computed.Link] never lowers a height; when it adds a link
    (the dependency is not the most recent one) between two distinct
    nodes with the subscriber in the arena, the dependency keeps its height
    and the subscriber ends strictly above it. *)
Theorem Link_raises_subscriber st sub dep :
  (forall m, n_height (node st m) <= n_height (node (Link st sub dep) m)) /\
  (last_opt (n_deps (node st sub)) <> Some dep ->
   sub < length (rt_nodes st) -> sub <> dep ->
   n_height (node (Link st sub dep) dep) = n_height (node st dep) /\
   n_height (node (Link st sub dep) dep) < n_height (node (Link st sub dep) sub)).
Proof.
  destruct (link_go_heights st sub dep) as [A B]. cbv zeta in A, B.
  rewrite Link_unfold. destruct (last_opt _) as [d|] eqn:E.
  - destruct (Nat.eqb_spec d dep) as [->|Hd].
    + split; [intros; lia|]. intros H. congruence.
    + split; [exact A|]. intros _. exact B.
  - split; [exact A|]. intros _. exact B.
Qed.

Lemma Link_raises_subscriber_witness :
  let st := set_nodes (NewRuntime 1) [with_height dflt_node 3; with_height dflt_node 0] in
  n_height (node (Link st 1 0) 0) = n_height (node st 0) /\
  n_height (node (Link st 1 0) 0) < n_height (node (Link st 1 0) 1).
Proof.
  cbv zeta. apply (proj2 (Link_raises_subscriber _ 1 0)); simpl; [discriminate|lia|lia].
Defined.

(** Number of links from [a] to [b] as the dependency list of [a] and
    as the subscriber list of [b]. *)
Lemma links_mirrored_eq st st' :
  (forall a, n_deps (node st' a) = n_deps (node st a)) ->
  (forall b, n_subs (node st' b) = n_subs (node st b)) ->
  links_mirrored st -> links_mirrored st'.
Proof. intros Hd Hs H a b. rewrite Hd, Hs. apply H. Qed.

Lemma count_app_one (l : list nat) x y :
  count_occ Nat.eq_dec (l ++ [y]) x =
  count_occ Nat.eq_dec l x + (if Nat.eq_dec y x then 1 else 0).
Proof. rewrite count_occ_app. simpl. destruct (Nat.eq_dec y x); reflexivity. Qed.

(** X6.  [Computed.Link] between two nodes of the arena keeps every
    dependency link recorded in both lists: if each node lists [b] as a
    dependency as often as [b] lists it as a subscriber, that still holds
    after the link. *)
Theorem Link_keeps_mirrored st sub dep :
  sub < length (rt_nodes st) -> dep < length (rt_nodes st) ->
  links_mirrored st -> links_mirrored (Link st sub dep).
Proof.
  intros Hs Hd H.
  assert (ED : forall a, n_deps (node (link_lists st sub dep) a) =
            if Nat.eqb sub a then n_deps (node st a) ++ [dep] else n_deps (node st a)).
  { intros a. unfold link_lists. rewrite (modify_field n_deps) by (intros; reflexivity).
    destruct (Nat.eqb_spec sub a) as [<-|Ha].
    - rewrite modify_node_same by exact Hs. reflexivity.
    - rewrite modify_node_other by exact Ha. reflexivity. }
  assert (ES : forall b, n_subs (node (link_lists st sub dep) b) =
            if Nat.eqb dep b then n_subs (node st b) ++ [sub] else n_subs (node st b)).
  { intros b. unfold link_lists. destruct (Nat.eqb_spec dep b) as [<-|Hb].
    - rewrite modify_node_same by (rewrite length_modify; exact Hd). simpl.
      rewrite (modify_field n_subs) by (intros; reflexivity). reflexivity.
    - rewrite modify_node_other by exact Hb.
      rewrite (modify_field n_subs) by (intros; reflexivity). reflexivity. }
  assert (G : links_mirrored (link_lists st sub dep)).
  { intros a b. rewrite ED, ES.
    destruct (Nat.eqb_spec sub a) as [<-|Ha]; destruct (Nat.eqb_spec dep b) as [<-|Hb];
      rewrite ?count_app_one, H;
      repeat match goal with |- context [Nat.eq_dec ?x ?y] => destruct (Nat.eq_dec x y) end;
      try congruence; lia. }
  rewrite Link_unfold.
  assert (K : forall s2, links_mirrored s2 -> links_mirrored
      (if Nat.leb (n_height (node s2 sub)) (n_height (node s2 dep))
       then modify_node s2 sub (fun x => with_height x (n_height (node s2 dep) + 1)) else s2)).
  { intros s2 Hs2. destruct (Nat.leb _ _); [|exact Hs2].
    apply (links_mirrored_eq s2); [| |exact Hs2]; intros;
      apply modify_field; reflexivity. }
  destruct (last_opt _) as [d|]; [destruct (Nat.eqb d dep); [exact H|]|]; apply K, G.
Qed.

Lemma Link_keeps_mirrored_witness :
  links_mirrored (Link (set_nodes (NewRuntime 1) [dflt_node; dflt_node]) 1 0).
Proof.
  apply Link_keeps_mirrored; simpl; try lia.
  intros a b. unfold node. simpl.
  destruct a as [|[|[|a]]]; destruct b as [|[|[|b]]]; reflexivity.
Defined.
End LinkProps.

Module ClearDepsProps.
Local Open Scope nat_scope.

Lemma count_remove_one c l :
  count_occ Nat.eq_dec (remove_one c l) c = count_occ Nat.eq_dec l c - 1 /\
  forall x, x <> c -> count_occ Nat.eq_dec (remove_one c l) x = count_occ Nat.eq_dec l x.
Proof.
  induction l as [|y r [IH1 IH2]]; simpl; [split; auto|].
  destruct (Nat.eqb_spec y c) as [->|Hy].
  - split; [destruct (Nat.eq_dec c c); [lia|congruence]|].
    intros x Hx. destruct (Nat.eq_dec c x); [congruence|reflexivity].
  - simpl. split.
    + destruct (Nat.eq_dec y c); [congruence|]. exact IH1.
    + intros x Hx. destruct (Nat.eq_dec y x); rewrite IH2 by exact Hx; reflexivity.
Qed.

Lemma node_beyond st n : length (rt_nodes st) <= n -> node st n = dflt_node.
Proof. intros H. unfold node. apply nth_overflow. exact H. Qed.

Lemma fold_unlink c l :
  forall st, (forall d, In d l -> d < length (rt_nodes st)) ->
  let st' := fold_left
    (fun s d => modify_node s d (fun x => with_subs x (remove_one c (n_subs x)))) l st in
  length (rt_nodes st') = length (rt_nodes st) /\
  (forall a, n_deps (node st' a) = n_deps (node st a)) /\
  (forall b x, x <> c ->
     count_occ Nat.eq_dec (n_subs (node st' b)) x = count_occ Nat.eq_dec (n_subs (node st b)) x) /\
  (forall b, count_occ Nat.eq_dec (n_subs (node st' b)) c =
             count_occ Nat.eq_dec (n_subs (node st b)) c - count_occ Nat.eq_dec l b).
Proof.
  induction l as [|d l IH]; intros st Hl; cbv zeta; simpl.
  - repeat split; intros; lia.
  - set (s1 := modify_node st d (fun x => with_subs x (remove_one c (n_subs x)))).
    assert (L1 : length (rt_nodes s1) = length (rt_nodes st)) by apply length_modify.
    destruct (IH s1) as (A & B & C & D).
    { intros d' Hd'. rewrite L1. apply Hl. right. exact Hd'. }
    assert (Hd : d < length (rt_nodes st)) by (apply Hl; left; reflexivity).
    assert (S1 : forall b, n_subs (node s1 b) =
              if Nat.eqb d b then remove_one c (n_subs (node st b)) else n_subs (node st b)).
    { intros b. unfold s1. destruct (Nat.eqb_spec d b) as [<-|Hb].
      - rewrite modify_node_same by exact Hd. reflexivity.
      - rewrite modify_node_other by exact Hb. reflexivity. }
    split; [congruence|]. split.
    { intros a. rewrite B. unfold s1. apply modify_field. reflexivity. }
    split.
    { intros b x Hx. rewrite C by exact Hx. rewrite S1.
      destruct (Nat.eqb d b); [apply count_remove_one; exact Hx|reflexivity]. }
    intros b. rewrite D, S1.
    destruct (Nat.eqb_spec d b) as [<-|Hb].
    + rewrite (proj1 (count_remove_one c _)).
      destruct (Nat.eq_dec d d); [lia|congruence].
    + destruct (Nat.eq_dec d b); [congruence|]. reflexivity.
Qed.

(** X7.  [Computed.ClearDeps] on mirrored links: the links stay
    mirrored, the node has no dependencies left and appears in no
    subscriber list, the other nodes' dependency lists are unchanged, and
    every other subscriber entry keeps its multiplicity. *)
Theorem ClearDeps_unlinks st c :
  links_mirrored st ->
  let st' := ClearDeps st c in
  links_mirrored st' /\ n_deps (node st' c) = [] /\
  (forall b, ~ In c (n_subs (node st' b))) /\
  (forall a, a <> c -> n_deps (node st' a) = n_deps (node st a)) /\
  (forall b x, x <> c -> count_occ Nat.eq_dec (n_subs (node st' b)) x =
                         count_occ Nat.eq_dec (n_subs (node st b)) x).
Proof.
  intros H. cbv zeta. unfold ClearDeps.
  assert (Hl : forall d, In d (n_deps (node st c)) -> d < length (rt_nodes st)).
  { intros d Hd. destruct (Nat.lt_ge_cases d (length (rt_nodes st))) as [|Hge]; [assumption|].
    exfalso. apply (count_occ_In Nat.eq_dec) in Hd. rewrite H in Hd.
    rewrite node_beyond in Hd by exact Hge. simpl in Hd. lia. }
  destruct (fold_unlink c (n_deps (node st c)) st Hl) as (A & B & C & D). cbv zeta in *.
  set (s1 := fold_left _ _ st) in *.
  assert (Dc : n_deps (node (modify_node s1 c (fun x => with_deps x [])) c) = []).
  { destruct (Nat.lt_ge_cases c (length (rt_nodes s1))) as [Hc|Hc].
    - rewrite modify_node_same by exact Hc. reflexivity.
    - rewrite node_beyond by (rewrite length_modify; exact Hc). reflexivity. }
  assert (Da : forall a, a <> c -> n_deps (node (modify_node s1 c (fun x => with_deps x [])) a) =
                                   n_deps (node st a)).
  { intros a Ha. rewrite modify_node_other by congruence. apply B. }
  assert (Sb : forall b, n_subs (node (modify_node s1 c (fun x => with_deps x [])) b) =
                         n_subs (node s1 b)).
  { intros b. apply modify_field. reflexivity. }
  assert (Z0 : forall b, count_occ Nat.eq_dec (n_subs (node s1 b)) c = 0).
  { intros b. rewrite D, <- H. lia. }
  split; [|split; [exact Dc|split; [|split; [exact Da|]]]].
  - intros a b. rewrite Sb. destruct (Nat.eq_dec a c) as [->|Ha].
    + rewrite Dc, Z0. reflexivity.
    + rewrite Da by exact Ha. rewrite C by exact Ha. apply H.
  - intros b Hin. rewrite Sb in Hin. apply (count_occ_In Nat.eq_dec) in Hin.
    rewrite Z0 in Hin. lia.
  - intros b x Hx. rewrite Sb. apply C. exact Hx.
Qed.
Lemma ClearDeps_unlinks_witness :
  let st := set_nodes (NewRuntime 1) [with_subs dflt_node [1%nat]; with_deps dflt_node [0%nat]] in
  links_mirrored (ClearDeps st 1) /\ n_deps (node (ClearDeps st 1) 1) = [].
Proof.
  cbv zeta.
  destruct (ClearDeps_unlinks
              (set_nodes (NewRuntime 1) [with_subs dflt_node [1%nat]; with_deps dflt_node [0%nat]]) 1)
    as (M & D & _).
  - intros a b. unfold node. simpl.
    destruct a as [|[|[|a]]]; destruct b as [|[|[|b]]]; reflexivity.
  - split; assumption.
Defined.

End ClearDepsProps.

Module HeapProps.
Local Open Scope nat_scope.
Import DrainProps.

Lemma upd_upd {A} (l : list A) i x y : upd (upd l i x) i y = upd l i y.
Proof. revert i; induction l as [|a r IH]; intros [|i]; simpl; f_equal; auto. Qed.

Lemma upd_nth {A} (l : list A) i d : upd l i (nth i l d) = l.
Proof. revert i; induction l as [|a r IH]; intros [|i]; simpl; f_equal; auto. Qed.

Lemma with_inheap_false x : n_inheap x = false -> with_inheap (with_inheap x true) false = x.
Proof. destruct x; simpl; intros ->; reflexivity. Qed.

Lemma remove_one_app_last x l : ~ In x l -> remove_one x (l ++ [x]) = l.
Proof.
  induction l as [|y r IH]; intros H; simpl; [rewrite Nat.eqb_refl; reflexivity|].
  destruct (Nat.eqb_spec y x) as [->|_]; [exfalso; apply H; left; reflexivity|].
  rewrite IH; [reflexivity|]. intros Hin; apply H; right; exact Hin.
Qed.

Lemma remove_one_notin x l : NoDup l -> ~ In x (remove_one x l).
Proof.
  induction l as [|y r IH]; intros Hd; simpl; [auto|].
  inversion Hd as [|? ? Hy Hr]; subst.
  destruct (Nat.eqb_spec y x) as [->|Hyx]; [exact Hy|].
  intros [Hx|Hx]; [congruence|]. apply IH; auto.
Qed.

Lemma remove_one_incl x y l : In y (remove_one x l) -> In y l.
Proof.
  induction l as [|z r IH]; simpl; [auto|].
  destruct (Nat.eqb z x); [right; auto|]. intros [H|H]; [left; auto|right; auto].
Qed.

Lemma remove_one_keep x y l : y <> x -> In y l -> In y (remove_one x l).
Proof.
  induction l as [|z r IH]; simpl; [auto|]. intros Hyx [->|H].
  - destruct (Nat.eqb_spec y x); [congruence|]. left; reflexivity.
  - destruct (Nat.eqb z x); [exact H|]. right; auto.
Qed.

Lemma remove_one_nodup x l : NoDup l -> NoDup (remove_one x l).
Proof.
  induction l as [|y r IH]; intros Hd; simpl; [constructor|].
  inversion Hd as [|? ? Hy Hr]; subst.
  destruct (Nat.eqb y x); [exact Hr|]. constructor; [|auto].
  intros Hin. apply Hy. eapply remove_one_incl. exact Hin.
Qed.

(** What [Insert] does to a node not in the heap. *)
Lemma Insert_fresh st n :
  n < length (rt_nodes st) -> n_inheap (node st n) = false ->
  let h := n_height (node st n) in
  let st' := Insert st n in
  (forall k, bucket (rt_heap st') k =
             if Nat.eqb k h && Nat.ltb h (length (h_nodes (rt_heap st)))
             then bucket (rt_heap st) k ++ [n] else bucket (rt_heap st) k) /\
  h_min (rt_heap st') = h_min (rt_heap st) /\
  h_max (rt_heap st') = Nat.max (h_max (rt_heap st)) h /\
  length (h_nodes (rt_heap st')) = length (h_nodes (rt_heap st)) /\
  node st' n = with_inheap (node st n) true /\
  (forall m, m <> n -> node st' m = node st m) /\
  length (rt_nodes st') = length (rt_nodes st).
Proof.
  intros Hn Hf. cbv zeta. unfold Insert. rewrite Hf. cbv iota zeta.
  change (rt_heap (modify_node ?a ?b ?c)) with (rt_heap a).
  rewrite (modify_field n_height) by (intros; reflexivity).
  set (hg := n_height (node st n)).
  change (node (set_heap ?a ?b)) with (node a).
  change (rt_nodes (set_heap ?a ?b)) with (rt_nodes a).
  change (rt_heap (set_heap ?a ?b)) with b.
  set (h1 := heap_set_bucket (rt_heap st) hg (bucket (rt_heap st) hg ++ [n])).
  split; [|split; [|split; [|split; [|split; [|split]]]]].
  - intros k. replace (bucket _ k) with (bucket h1 k)
      by (destruct (Nat.ltb (h_max h1) hg); reflexivity).
    unfold h1. rewrite bucket_set. destruct (Nat.eqb_spec hg k) as [<-|Hk].
    + rewrite Nat.eqb_refl. reflexivity.
    + destruct (Nat.eqb_spec k hg); [congruence|]. reflexivity.
  - destruct (Nat.ltb (h_max h1) hg); reflexivity.
  - destruct (Nat.ltb_spec (h_max h1) hg); simpl; unfold h1 in *; simpl in *; lia.
  - destruct (Nat.ltb (h_max h1) hg); simpl; apply length_upd.
  - apply modify_node_same. exact Hn.
  - intros m Hm. apply modify_node_other. congruence.
  - apply length_modify.
Qed.

(** X8.  [PriorityHeap.Insert] of an arena node whose height is a valid
    bucket index: a no-op for a node already flagged in the heap;
    otherwise the node is appended at the tail of the bucket of its
    height, the other buckets and [min] are unchanged, [max] becomes the
    maximum of [max] and the height, the node is flagged, and no other node
    changes.  Inserting twice is inserting once. *)
Theorem Insert_tail_of_bucket st n :
  n < length (rt_nodes st) ->
  n_height (node st n) < length (h_nodes (rt_heap st)) ->
  (n_inheap (node st n) = true -> Insert st n = st) /\
  (n_inheap (node st n) = false ->
     bucket (rt_heap (Insert st n)) (n_height (node st n)) =
       bucket (rt_heap st) (n_height (node st n)) ++ [n] /\
     (forall k, k <> n_height (node st n) ->
        bucket (rt_heap (Insert st n)) k = bucket (rt_heap st) k) /\
     h_max (rt_heap (Insert st n)) = Nat.max (h_max (rt_heap st)) (n_height (node st n)) /\
     h_min (rt_heap (Insert st n)) = h_min (rt_heap st) /\
     n_inheap (node (Insert st n) n) = true /\
     n_height (node (Insert st n) n) = n_height (node st n) /\
     (forall m, m <> n -> node (Insert st n) m = node st m)) /\
  Insert (Insert st n) n = Insert st n.
Proof.
  intros Hn Hh.
  assert (T : n_inheap (node st n) = true -> Insert st n = st)
    by (intros E; unfold Insert; rewrite E; reflexivity).
  destruct (n_inheap (node st n)) eqn:E.
  - split; [exact T|]. split; [discriminate|]. rewrite (T eq_refl). exact (T eq_refl).
  - destruct (Insert_fresh st n Hn E) as (B & Mn & Mx & _ & Nn & No & _). cbv zeta in *.
    split; [discriminate|]. split.
    + intros _. split; [|split; [|split; [|split; [|split]]]].
      * rewrite B, Nat.eqb_refl. apply Nat.ltb_lt in Hh. rewrite Hh. reflexivity.
      * intros k Hk. rewrite B. apply Nat.eqb_neq in Hk. rewrite Hk. reflexivity.
      * exact Mx.
      * exact Mn.
      * rewrite Nn. reflexivity.
      * split; [rewrite Nn; reflexivity|exact No].
    + unfold Insert at 1. rewrite Nn. reflexivity.
Qed.

Lemma Insert_tail_of_bucket_witness :
  let st := set_nodes (NewRuntime 1) [with_height dflt_node 2] in
  bucket (rt_heap (Insert st 0)) 2 = bucket (rt_heap st) 2 ++ [0%nat] /\
  h_max (rt_heap (Insert st 0)) = Nat.max (h_max (rt_heap st)) 2.
Proof.
  cbv zeta.
  destruct (Insert_tail_of_bucket (set_nodes (NewRuntime 1) [with_height dflt_node 2]) 0)
    as (_ & F & _).
  - simpl. lia.
  - vm_compute. lia.
  - destruct (F eq_refl) as (B & _ & Mx & _). split; assumption.
Defined.


Lemma upd_beyond {A} (l : list A) i x : length l <= i -> upd l i x = l.
Proof.
  revert i; induction l as [|a r IH]; intros [|i] H; simpl in *; try lia; auto.
  f_equal. apply IH. lia.
Qed.

Lemma Runtime_ext a b :
  rt_nodes a = rt_nodes b -> rt_heap a = rt_heap b -> rt_tracker a = rt_tracker b ->
  rt_depth a = rt_depth b -> rt_sched a = rt_sched b -> rt_nodeQueue a = rt_nodeQueue b ->
  rt_render a = rt_render b -> rt_user a = rt_user b -> rt_gid a = rt_gid b ->
  rt_out a = rt_out b -> a = b.
Proof. destruct a, b; simpl; intros; subst; reflexivity. Qed.

(** X9.  [PriorityHeap.Remove] undoes [PriorityHeap.Insert] of an
    unflagged arena node absent from its bucket, whose height is below
    the number of buckets (beyond it Go's [Insert] indexes out of range),
    except that [max] keeps the raise done by [Insert]. *)
Theorem Remove_Insert_roundtrip st n :
  n < length (rt_nodes st) -> n_inheap (node st n) = false ->
  ~ In n (bucket (rt_heap st) (n_height (node st n))) ->
  n_height (node st n) < length (h_nodes (rt_heap st)) ->
  Remove (Insert st n) n =
  set_heap st (heap_set_max (rt_heap st) (Nat.max (h_max (rt_heap st)) (n_height (node st n)))).
Proof.
  intros Hn Hf Hb _.
  set (hg := n_height (node st n)) in *.
  set (L := h_nodes (rt_heap st)).
  set (b := bucket (rt_heap st) hg).
  set (s1 := modify_node st n (fun x => with_inheap x true)).
  set (h1 := heap_set_bucket (rt_heap st) hg (b ++ [n])).
  set (h2 := if Nat.ltb (h_max h1) hg then heap_set_max h1 hg else h1).
  assert (EI : Insert st n = set_heap s1 h2).
  { unfold Insert. rewrite Hf. cbv zeta. fold s1.
    change (rt_heap s1) with (rt_heap st).
    replace (n_height (node s1 n)) with hg
      by (unfold s1; rewrite (modify_field n_height) by (intros; reflexivity); reflexivity).
    reflexivity. }
  assert (N1 : node s1 n = with_inheap (node st n) true)
    by (apply modify_node_same; exact Hn).
  assert (Hn1 : n < length (rt_nodes s1)) by (unfold s1; rewrite length_modify; exact Hn).
  rewrite EI. unfold Remove.
  change (node (set_heap s1 h2) n) with (node s1 n). rewrite N1. simpl negb. cbv iota zeta.
  change (rt_heap (modify_node (set_heap s1 h2) ?a ?f)) with h2.
  rewrite (modify_field n_height) by (intros; reflexivity).
  change (node (set_heap s1 h2) n) with (node s1 n). rewrite N1. simpl n_height. fold hg.
  assert (HN2 : h_nodes h2 = upd L hg (b ++ [n]))
    by (unfold h2; destruct (Nat.ltb _ _); reflexivity).
  assert (HM2 : h_max h2 = Nat.max (h_max (rt_heap st)) hg).
  { unfold h2. change (h_max h1) with (h_max (rt_heap st)).
    destruct (Nat.ltb_spec (h_max (rt_heap st)) hg); simpl; lia. }
  apply Runtime_ext; try reflexivity.
  - change (rt_nodes (set_heap ?a ?h)) with (rt_nodes a).
    unfold modify_node, put_node, set_nodes. simpl.
    change (node (set_heap s1 h2) n) with (node s1 n). rewrite N1.
    rewrite with_inheap_false by exact Hf. unfold s1, modify_node, put_node, set_nodes. simpl.
    rewrite upd_upd. apply upd_nth.
  - change (rt_heap (set_heap ?a ?h)) with h. simpl.
    unfold heap_set_bucket, heap_set_max. rewrite HM2, HN2.
    replace (h_min h2) with (h_min (rt_heap st))
      by (unfold h2; destruct (Nat.ltb _ _); reflexivity).
    f_equal. unfold bucket. rewrite HN2.
    destruct (Nat.lt_ge_cases hg (length L)) as [Hl|Hl].
    + assert (E : nth hg (upd L hg (b ++ [n])) [] = b ++ [n]).
      { rewrite nth_upd, Nat.eqb_refl. apply Nat.ltb_lt in Hl. rewrite Hl. reflexivity. }
      rewrite E, remove_one_app_last by exact Hb. rewrite upd_upd. apply upd_nth.
    + rewrite !upd_beyond; try rewrite length_upd; try exact Hl. reflexivity.
Qed.

Lemma Remove_Insert_roundtrip_witness :
  let st := set_nodes (NewRuntime 1) [with_height dflt_node 2] in
  Remove (Insert st 0) 0 =
  set_heap st (heap_set_max (rt_heap st) (Nat.max (h_max (rt_heap st)) (n_height (node st 0)))).
Proof.
  cbv zeta. apply Remove_Insert_roundtrip.
  - simpl. lia.
  - reflexivity.
  - vm_compute. intros [].
  - apply Nat.ltb_lt. vm_compute. reflexivity.
Defined.

(** X10.  On a consistent heap, [PriorityHeap.Remove] keeps the heap
    consistent, leaves the node in no bucket and the other nodes' bucket
    membership as it was, clears the node's flag, touches no other node,
    and leaves [min] and [max] alone. *)
Theorem Remove_takes_out st n :
  heap_wf st ->
  heap_wf (Remove st n) /\
  (forall k, ~ In n (bucket (rt_heap (Remove st n)) k)) /\
  (forall k m, m <> n -> (In m (bucket (rt_heap (Remove st n)) k) <-> In m (bucket (rt_heap st) k))) /\
  (n < length (rt_nodes st) -> n_inheap (node (Remove st n) n) = false) /\
  (forall m, m <> n -> node (Remove st n) m = node st m) /\
  h_min (rt_heap (Remove st n)) = h_min (rt_heap st) /\
  h_max (rt_heap (Remove st n)) = h_max (rt_heap st).
Proof.
  intros [W1 W2].
  unfold Remove. destruct (n_inheap (node st n)) eqn:E; simpl negb; cbv iota zeta.
  2:{ split; [split; assumption|]. split.
      { intros k Hin. destruct (W1 _ _ Hin) as (A & _). congruence. }
      split; [intros; tauto|]. split; [intros; exact E|]. split; [intros; reflexivity|].
      split; reflexivity. }
  set (s1 := modify_node st n (fun x => with_inheap x false)).
  change (rt_heap s1) with (rt_heap st).
  replace (n_height (node s1 n)) with (n_height (node st n))
    by (unfold s1; rewrite (modify_field n_height) by (intros; reflexivity); reflexivity).
  set (hg := n_height (node st n)).
  set (H' := heap_set_bucket (rt_heap st) hg (remove_one n (bucket (rt_heap st) hg))).
  unfold heap_wf.
  change (rt_heap (set_heap s1 H')) with H'.
  change (node (set_heap s1 H')) with (node s1).
  change (rt_nodes (set_heap s1 H')) with (rt_nodes s1).
  assert (B : forall k, bucket H' k =
    if Nat.eqb hg k && Nat.ltb hg (length (h_nodes (rt_heap st)))
    then remove_one n (bucket (rt_heap st) hg) else bucket (rt_heap st) k)
    by (intros k; apply bucket_set).
  assert (NotK : forall k, k <> hg -> ~ In n (bucket (rt_heap st) k)).
  { intros k Hk Hin. destruct (W1 _ _ Hin) as (_ & Hh & _). unfold hg in Hk. congruence. }
  assert (Inc : forall k m, In m (bucket H' k) -> In m (bucket (rt_heap st) k) /\ m <> n).
  { intros k m Hm. rewrite B in Hm. destruct (Nat.eqb_spec hg k) as [<-|Hk]; simpl in Hm.
    - destruct (Nat.ltb_spec hg (length (h_nodes (rt_heap st)))) as [Hl|Hl].
      + split; [eapply remove_one_incl; exact Hm|]. intros ->.
        apply (remove_one_notin n _ (W2 hg)). exact Hm.
      + exfalso. unfold bucket in Hm. rewrite nth_overflow in Hm by exact Hl. exact Hm.
    - split; [exact Hm|]. intros ->. apply (NotK k); [congruence|exact Hm]. }
  assert (Oth : forall m, m <> n -> node s1 m = node st m)
    by (intros m Hm; apply modify_node_other; congruence).
  split; [split|].
  - intros k m Hm. destruct (Inc k m Hm) as [Hm' Hne]. rewrite Oth by exact Hne.
    unfold s1. rewrite length_modify. apply W1. exact Hm'.
  - intros k. rewrite B. destruct (_ && _); [apply remove_one_nodup, W2|apply W2].
  - split; [intros k Hin; apply (proj2 (Inc k n Hin)); reflexivity|].
    split.
    { intros k m Hm. split; [intros Hin; apply (Inc k m Hin)|].
      intros Hin. rewrite B. destruct (Nat.eqb_spec hg k) as [<-|Hk]; simpl; [|exact Hin].
      destruct (Nat.ltb _ _); [apply remove_one_keep; assumption|exact Hin]. }
    split; [intros Hl; unfold s1; rewrite modify_node_same by exact Hl; reflexivity|].
    split; [exact Oth|]. split; reflexivity.
Qed.

Lemma Remove_takes_out_witness :
  let st := Insert (set_nodes (NewRuntime 1) [with_height dflt_node 2]) 0 in
  heap_wf st /\ heap_wf (Remove st 0) /\ (forall k, ~ In 0 (bucket (rt_heap (Remove st 0)) k)).
Proof.
  cbv zeta. assert (W : heap_wf (Insert (set_nodes (NewRuntime 1) [with_height dflt_node 2]) 0))
    by (apply heap_wfb_sound; vm_compute; reflexivity).
  split; [exact W|].
  destruct (Remove_takes_out _ 0 W) as (A & B & _). split; [exact A|exact B].
Defined.

Lemma Insert_step st n :
  heap_wf st -> n < length (rt_nodes st) -> n_height (node st n) < length (h_nodes (rt_heap st)) ->
  let st' := Insert st n in
  heap_wf st' /\ n_inheap (node st' n) = true /\
  (n_inheap (node st n) = false -> In n (bucket (rt_heap st') (n_height (node st n)))) /\
  (forall k, exists suf, bucket (rt_heap st') k = bucket (rt_heap st) k ++ suf) /\
  (forall m, n_inheap (node st m) = true -> n_inheap (node st' m) = true) /\
  (forall m, n_height (node st' m) = n_height (node st m)) /\
  length (rt_nodes st') = length (rt_nodes st) /\
  length (h_nodes (rt_heap st')) = length (h_nodes (rt_heap st)).
Proof.
  intros [W1 W2] Hn Hh. cbv zeta.
  destruct (n_inheap (node st n)) eqn:E.
  { assert (T : Insert st n = st) by (unfold Insert; rewrite E; reflexivity).
    rewrite T. split; [split; assumption|]. split; [exact E|]. split; [discriminate|].
    split; [intros k; exists []; rewrite app_nil_r; reflexivity|]. auto. }
  destruct (Insert_fresh st n Hn E) as (B & _ & _ & LB & Nn & No & L). cbv zeta in *.
  set (hg := n_height (node st n)) in *.
  assert (Hnot : forall k, ~ In n (bucket (rt_heap st) k)).
  { intros k Hin. destruct (W1 _ _ Hin) as (A & _). congruence. }
  assert (Hh' : Nat.ltb hg (length (h_nodes (rt_heap st))) = true) by (apply Nat.ltb_lt; exact Hh).
  assert (NH : forall m, n_height (node (Insert st n) m) = n_height (node st m)).
  { intros m. destruct (Nat.eq_dec m n) as [->|Hm]; [rewrite Nn; reflexivity|rewrite No; auto]. }
  split; [split|].
  - intros k m Hin. rewrite B in Hin. rewrite L.
    destruct (Nat.eqb_spec k hg) as [->|Hk]; rewrite ?Hh' in Hin; simpl in Hin.
    + apply in_app_iff in Hin as [Hin|[<-|[]]].
      * assert (m <> n) by (intros ->; apply (Hnot hg); exact Hin).
        rewrite No by assumption. apply W1. exact Hin.
      * rewrite Nn. simpl. auto.
    + assert (m <> n) by (intros ->; apply (Hnot k); exact Hin).
      rewrite No by assumption. apply W1. exact Hin.
  - intros k. rewrite B. destruct (_ && _); [apply NoDup_snoc; [apply W2|apply Hnot]|apply W2].
  - split; [rewrite Nn; reflexivity|]. split.
    { intros _. rewrite B, Nat.eqb_refl, Hh'. simpl. apply in_or_app. right; left; reflexivity. }
    split. { intros k. rewrite B. destruct (_ && _); [exists [n]; reflexivity|exists []; symmetry; apply app_nil_r]. }
    split. { intros m Hm. destruct (Nat.eq_dec m n) as [->|Hmn]; [congruence|]. rewrite No; auto. }
    split; [exact NH|]. split; [exact L|exact LB].
Qed.

(** X11.  On a consistent heap, [PriorityHeap.InsertAll] of arena nodes
    with valid heights keeps the heap consistent, flags every listed node
    and puts each one that was not yet flagged in the bucket of its
    height; buckets only grow at their tails and no height changes. *)
Theorem InsertAll_enqueues l :
  forall st, heap_wf st ->
  Forall (fun m => m < length (rt_nodes st) /\
                   n_height (node st m) < length (h_nodes (rt_heap st))) l ->
  let st' := InsertAll st l in
  heap_wf st' /\
  (forall m, In m l -> n_inheap (node st' m) = true /\
     (n_inheap (node st m) = false -> In m (bucket (rt_heap st') (n_height (node st m))))) /\
  (forall k, exists suf, bucket (rt_heap st') k = bucket (rt_heap st) k ++ suf) /\
  (forall m, n_height (node st' m) = n_height (node st m)).
Proof.
  induction l as [|a l IH]; intros st W HF; cbv zeta.
  - unfold InsertAll; simpl. split; [exact W|]. split; [intros m []|].
    split; [intros k; exists []; symmetry; apply app_nil_r|reflexivity].
  - inversion HF as [|? ? [Ha1 Ha2] HF']; subst.
    destruct (Insert_step st a W Ha1 Ha2) as (W' & F1 & I1 & P1 & K1 & H1 & L1 & LB1).
    cbv zeta in *.
    change (InsertAll st (a :: l)) with (InsertAll (Insert st a) l).
    destruct (IH (Insert st a) W') as (W2 & F2 & P2 & H2).
    { eapply Forall_impl; [|exact HF']. intros m [A B]. rewrite L1, LB1, H1. auto. }
    split; [exact W2|]. split; [|split].
    + intros m [Ea|Hm]; [subst m|].
      * destruct (in_dec Nat.eq_dec a l) as [Hl|Hl].
        -- destruct (F2 a Hl) as [F _]. split; [exact F|].
           intros E. destruct (P2 (n_height (node st a))) as [suf Hs].
           rewrite Hs. apply in_or_app. left. apply I1. exact E.
        -- split.
           ++ revert F1. generalize (Insert st a) as s. clear -Hl.
              induction l as [|b l IHl]; intros s F; [exact F|].
              change (InsertAll s (b :: l)) with (InsertAll (Insert s b) l).
              apply IHl; [intros H; apply Hl; right; exact H|].
              unfold Insert. destruct (n_inheap (node s b)); [exact F|]. cbv zeta.
              change (node (set_heap ?x ?h)) with (node x).
              rewrite modify_node_other by (intros ->; apply Hl; left; reflexivity). exact F.
           ++ intros E. destruct (P2 (n_height (node st a))) as [suf Hs].
              rewrite Hs. apply in_or_app. left. apply I1. exact E.
      * destruct (F2 m Hm) as [F I]. split; [exact F|].
        intros E. destruct (n_inheap (node (Insert st a) m)) eqn:E2.
        -- destruct (Nat.eq_dec m a) as [->|Hma].
           ++ destruct (P2 (n_height (node st a))) as [suf Hs].
              rewrite Hs. apply in_or_app. left. apply I1. exact E.
           ++ unfold Insert in E2. destruct (n_inheap (node st a)); [congruence|].
              cbv zeta in E2. change (node (set_heap ?x ?h)) with (node x) in E2.
              rewrite modify_node_other in E2 by congruence. congruence.
        -- rewrite <- (H1 m). apply I. reflexivity.
    + intros k. destruct (P1 k) as [s1 E1]. destruct (P2 k) as [s2 E2].
      exists (s1 ++ s2). rewrite E2, E1, app_assoc. reflexivity.
    + intros m. rewrite H2, H1. reflexivity.
Qed.

Lemma InsertAll_enqueues_witness :
  In 1 (bucket (rt_heap (InsertAll DrainExamples.two_nodes [1; 0])) 1).
Proof.
  assert (W : heap_wf DrainExamples.two_nodes) by (apply heap_wfb_sound; vm_compute; reflexivity).
  destruct (InsertAll_enqueues [1; 0] DrainExamples.two_nodes W) as (_ & F & _).
  - repeat constructor; vm_compute; lia.
  - apply (proj2 (F 1 (or_introl eq_refl))). reflexivity.
Defined.
End HeapProps.

Module TrackerProps.

Lemma set_tracker_same st t : t = rt_tracker st -> set_tracker st t = st.
Proof. intros ->. destruct st; reflexivity. Qed.

(** X12.  A [Read] inside [Tracker.RunUntracked] creates no dependency
    link: the whole run changes nothing but the printed value, which is
    the node's [Value()].  Whatever [fn] does, the deferred restore puts
    back the saved [tracking] flag, also when [fn] panics. *)
Theorem RunUntracked_read_no_link st n :
  RunUntracked (fun s => let (s1, v) := Read s n in Done (set_out s1 (rt_out s1 ++ [v]))) st =
  Done (set_out st (rt_out st ++ [Value st n])) /\
  (forall f, match RunUntracked f st with
             | Done s | Failed s => t_tracking (rt_tracker s) = t_tracking (rt_tracker st)
             | NoFuel => True end).
Proof.
  split.
  - destruct st as [ns h [tr g cur] d sc q r u gid o].
    unfold RunUntracked, Read, Track, shouldTrack. simpl.
    destruct cur; reflexivity.
  - intros f. unfold RunUntracked. destruct (f _); reflexivity.
Qed.

Lemma Link_deps_other st sub dep m :
  m <> sub -> n_deps (node (Link st sub dep) m) = n_deps (node st m).
Proof.
  intros Hm. unfold Link. cbv zeta.
  destruct (last_opt _) as [d|]; [destruct (Nat.eqb d dep); [reflexivity|]|];
    destruct (Nat.leb _ _);
    rewrite ?(modify_field n_deps (modify_node (modify_node st _ _) _ _))
      by (intros; reflexivity);
    rewrite (modify_field n_deps (modify_node st _ _)) by (intros; reflexivity);
    rewrite modify_node_other by congruence; reflexivity.
Qed.

(** X13.  A [Read] of [n] inside [Tracker.RunWithComputation(c, ...)]
    links [n] to [c], the innermost computation: [n] is appended to the
    dependencies of [c] and [c] to the subscribers of [n], no other
    dependency list changes, and afterwards the previous current
    computation is restored, tracking is still on and the executing
    goroutine is the runtime's. *)
Theorem RunWithComputation_tracks_innermost st c n :
  t_tracking (rt_tracker st) = true ->
  (c < length (rt_nodes st))%nat -> (n < length (rt_nodes st))%nat ->
  last_opt (n_deps (node st c)) <> Some n ->
  exists st',
    RunWithComputation c (fun s => Done (fst (Read s n))) st = Done st' /\
    n_deps (node st' c) = n_deps (node st c) ++ [n] /\
    n_subs (node st' n) = n_subs (node st n) ++ [c] /\
    (forall m, m <> c -> n_deps (node st' m) = n_deps (node st m)) /\
    t_current (rt_tracker st') = t_current (rt_tracker st) /\
    t_tracking (rt_tracker st') = true /\
    t_executingGID (rt_tracker st') = rt_gid st.
Proof.
  intros Ht Hc Hn Hl.
  set (s0 := set_tracker st (mkTracker (t_tracking (rt_tracker st)) (rt_gid st) (Some c))).
  assert (ET : fst (Read s0 n) = Link s0 c n).
  { unfold Read, Track, shouldTrack. simpl. rewrite Ht, Z.eqb_refl. reflexivity. }
  exists (set_tracker (Link s0 c n)
    (set_tracking_current (rt_tracker (Link s0 c n)) (t_current (rt_tracker st)))).
  split.
  { unfold RunWithComputation. cbv beta zeta. fold s0. rewrite ET. reflexivity. }
  change (node (set_tracker ?a ?t)) with (node a).
  change (rt_tracker (set_tracker ?a ?t)) with t.
  destruct (ComputedProps.Link_rest s0 c n) as (_ & _ & T & _). rewrite T.
  destruct (Link_appends s0 c n Hl Hc Hn) as [A B].
  change (node s0) with (node st) in A, B.
  split; [exact A|]. split; [exact B|]. split.
  - intros m Hm. rewrite Link_deps_other by exact Hm. reflexivity.
  - simpl. auto.
Qed.
Lemma RunWithComputation_tracks_innermost_witness :
  exists st', RunWithComputation 1 (fun s => Done (fst (Read s 0))) DrainExamples.two_nodes = Done st' /\
    n_deps (node st' 1) = n_deps (node DrainExamples.two_nodes 1) ++ [0%nat] /\
    n_subs (node st' 0) = n_subs (node DrainExamples.two_nodes 0) ++ [1%nat].
Proof.
  destruct (RunWithComputation_tracks_innermost DrainExamples.two_nodes 1 0)
    as (st' & E & D & S & _).
  - reflexivity.
  - vm_compute. lia.
  - vm_compute. lia.
  - vm_compute. discriminate.
  - exists st'. split; [exact E|split; assumption].
Defined.

End TrackerProps.

Module WriteProps.

Lemma Insert_field {B} (P : Node -> B) s a m :
  (forall x b, P (with_inheap x b) = P x) -> P (node (Insert s a) m) = P (node s m).
Proof.
  intros H. unfold Insert. destruct (n_inheap _); [reflexivity|]. cbv zeta.
  change (node (set_heap ?x ?h)) with (node x). apply modify_field. intros; apply H.
Qed.

Lemma InsertAll_field {B} (P : Node -> B) l :
  (forall x b, P (with_inheap x b) = P x) ->
  forall s m, P (node (InsertAll s l) m) = P (node s m).
Proof.
  intros H. induction l as [|a l IH]; intros s m; [reflexivity|].
  change (InsertAll s (a :: l)) with (InsertAll (Insert s a) l).
  rewrite IH. apply Insert_field. exact H.
Qed.

Lemma Insert_others s a :
  rt_tracker (Insert s a) = rt_tracker s /\ rt_depth (Insert s a) = rt_depth s /\
  rt_nodeQueue (Insert s a) = rt_nodeQueue s /\ rt_render (Insert s a) = rt_render s /\
  rt_user (Insert s a) = rt_user s /\ rt_gid (Insert s a) = rt_gid s.
Proof. unfold Insert. destruct (n_inheap _); repeat split. Qed.

Lemma InsertAll_others l :
  forall s, rt_tracker (InsertAll s l) = rt_tracker s /\ rt_depth (InsertAll s l) = rt_depth s /\
  rt_nodeQueue (InsertAll s l) = rt_nodeQueue s /\ rt_render (InsertAll s l) = rt_render s /\
  rt_user (InsertAll s l) = rt_user s /\ rt_gid (InsertAll s l) = rt_gid s.
Proof.
  induction l as [|a l IH]; intros s; [repeat split|].
  change (InsertAll s (a :: l)) with (InsertAll (Insert s a) l).
  destruct (IH (Insert s a)) as (A & B & C & D & E & F).
  destruct (Insert_others s a) as (A' & B' & C' & D' & E' & F').
  repeat split; congruence.
Qed.

Lemma InsertAll_flags l :
  forall s m, (In m l /\ (m < length (rt_nodes s))%nat) \/ n_inheap (node s m) = true ->
  n_inheap (node (InsertAll s l) m) = true.
Proof.
  induction l as [|a l IH]; intros s m H.
  - destruct H as [[[] _]|H]; exact H.
  - change (InsertAll s (a :: l)) with (InsertAll (Insert s a) l). apply IH.
    assert (L : length (rt_nodes (Insert s a)) = length (rt_nodes s)).
    { unfold Insert. destruct (n_inheap (node s a)); [reflexivity|apply length_modify]. }
    rewrite L.
    destruct H as [[[->|Hm] Hl]|Hf].
    + right. unfold Insert. destruct (n_inheap (node s m)) eqn:E; [exact E|]. cbv zeta.
      change (node (set_heap ?x ?h)) with (node x). rewrite modify_node_same by exact Hl.
      reflexivity.
    + left. auto.
    + right. unfold Insert. destruct (n_inheap (node s a)); [exact Hf|]. cbv zeta.
      change (node (set_heap ?x ?h)) with (node x). rewrite node_modify.
      destruct (_ && _); [reflexivity|exact Hf].
Qed.

(** X14.  A [Signal.Write] of a new value inside a batch and outside
    any flush (so [Runtime.mu] is free), to a signal whose subscribers
    have heights below the number of buckets, stages the value: [Value()] returns it while the
    committed value is unchanged, the version is the current clock, every
    subscriber in the arena is flagged in the heap and [scheduled] is set;
    no flush runs (clock, [running], printed output, effect lanes, node
    queue and depth are unchanged). *)
Theorem Write_deferred fuel st n v :
  isEqual (Value st n) v = false ->
  rt_depth st <> 0%nat -> s_running (rt_sched st) = false ->
  (n < length (rt_nodes st))%nat ->
  (forall m, In m (n_subs (node st n)) ->
     (n_height (node st m) < length (h_nodes (rt_heap st)))%nat) ->
  exists st', Write (S (S fuel)) st n v = Done st' /\
    Value st' n = v /\ n_value (node st' n) = n_value (node st n) /\
    n_version (node st' n) = s_clock (rt_sched st) /\
    (forall m, In m (n_subs (node st n)) -> (m < length (rt_nodes st))%nat ->
               n_inheap (node st' m) = true) /\
    s_scheduled (rt_sched st') = true /\
    s_clock (rt_sched st') = s_clock (rt_sched st) /\
    s_running (rt_sched st') = s_running (rt_sched st) /\
    rt_out st' = rt_out st /\ rt_render st' = rt_render st /\ rt_user st' = rt_user st /\
    rt_nodeQueue st' = rt_nodeQueue st /\ rt_depth st' = rt_depth st.
Proof.
  intros Heq Hd Hr Hn _.
  set (st1 := modify_node st n (fun x => with_pending x (Some v))).
  set (st2 := modify_node st1 n (fun x => with_version x (s_clock (rt_sched st1)))).
  set (st3 := InsertAll st2 (n_subs (node st2 n))).
  assert (EW : Write (S (S fuel)) st n v = Done (SchedSchedule st3)).
  { cbn [Write]. rewrite Heq. fold st1 st2 st3. cbn [Schedule negb andb].
    destruct (InsertAll_others (n_subs (node st2 n)) st2) as (_ & D & _).
    destruct (ComputedProps.InsertAll_rest (n_subs (node st2 n)) st2) as (_ & S & _).
    fold st3 in D, S.
    assert (Hsf : (Nat.eqb (rt_depth (SchedSchedule st3)) 0 &&
                   negb (s_running (rt_sched (SchedSchedule st3)))) = false).
    { change (rt_depth (SchedSchedule st3)) with (rt_depth st3).
      change (rt_sched (SchedSchedule st3)) with (sched_set_scheduled (rt_sched st3) true).
      cbn [s_running sched_set_scheduled]. rewrite D, S. change (rt_depth st2) with (rt_depth st). change (rt_sched st2) with (rt_sched st).
      apply Nat.eqb_neq in Hd. rewrite Hd. reflexivity. }
    rewrite Hsf. reflexivity. }
  exists (SchedSchedule st3). split; [exact EW|].
  destruct (InsertAll_others (n_subs (node st2 n)) st2) as (T3 & D3 & Q3 & R3 & U3 & _).
  destruct (ComputedProps.InsertAll_rest (n_subs (node st2 n)) st2) as (O3 & S3 & L3 & P3).
  fold st3 in T3, D3, Q3, R3, U3, O3, S3, L3, P3.
  assert (L2 : length (rt_nodes st2) = length (rt_nodes st))
    by (unfold st2, st1; rewrite !length_modify; reflexivity).
  assert (N2 : node st2 n = with_version (with_pending (node st n) (Some v)) (s_clock (rt_sched st))).
  { unfold st2. rewrite modify_node_same by (unfold st1; rewrite length_modify; exact Hn).
    unfold st1. rewrite modify_node_same by exact Hn. reflexivity. }
  unfold Value. change (node (SchedSchedule st3)) with (node st3).
  change (rt_sched (SchedSchedule st3)) with (sched_set_scheduled (rt_sched st3) true).
  cbn [s_scheduled s_clock s_running sched_set_scheduled].
  change (rt_out (SchedSchedule st3)) with (rt_out st3).
  change (rt_render (SchedSchedule st3)) with (rt_render st3).
  change (rt_user (SchedSchedule st3)) with (rt_user st3).
  change (rt_nodeQueue (SchedSchedule st3)) with (rt_nodeQueue st3).
  change (rt_depth (SchedSchedule st3)) with (rt_depth st3).
  rewrite S3, O3, R3, U3, Q3, D3. rewrite P3.
  assert (V3 : n_value (node st3 n) = n_value (node st2 n)) by (apply InsertAll_field; reflexivity).
  assert (W3 : n_version (node st3 n) = n_version (node st2 n)) by (apply InsertAll_field; reflexivity).
  rewrite V3, W3, N2. simpl.
  split; [reflexivity|]. split; [reflexivity|]. split; [reflexivity|].
  split; [|repeat split].
  intros m Hm Hl. unfold st3. apply InsertAll_flags. left. split.
  - rewrite N2. exact Hm.
  - rewrite L2. exact Hl.
Qed.

Lemma Write_deferred_witness :
  exists st', Write 2 (set_depth (fst (NewSignal (NewRuntime 1) (GInt 0))) 1) 0 (GInt 5) = Done st' /\
    Value st' 0 = GInt 5 /\ s_scheduled (rt_sched st') = true.
Proof.
  destruct (Write_deferred 0 (set_depth (fst (NewSignal (NewRuntime 1) (GInt 0))) 1) 0 (GInt 5))
    as (st' & E & V & _ & _ & _ & S & _).
  - reflexivity.
  - discriminate.
  - reflexivity.
  - simpl. lia.
  - intros m Hm. vm_compute in Hm. destruct Hm.
  - exists st'. auto.
Defined.
End WriteProps.

Module FlushProps.


Lemma run_loop_NoErr body i :
  forall count s s', run_loop body i count s = Done (NoErr, s') ->
  s_scheduled (rt_sched s') = false.
Proof.
  induction i as [|i IH]; intros count s s' H; [discriminate|].
  cbn [run_loop] in H. destruct (s_scheduled (rt_sched s)) eqn:E.
  - destruct (Z.ltb _ _); [discriminate|].
    destruct (body _) as [s3|s3|]; [|discriminate|discriminate].
    exact (IH _ _ _ H).
  - injection H as <-. exact E.
Qed.

Lemma Flush_idle fuel st st' :
  s_running (rt_sched st) = false -> Flush fuel st = Done st' ->
  s_scheduled (rt_sched st') = false /\ s_running (rt_sched st') = false.
Proof.
  intros Hr H. destruct fuel as [|f]; [discriminate|]. cbn [Flush] in H.
  unfold SchedRun in H. rewrite Hr in H.
  destruct (run_loop _ _ _ _) as [[[|] s1]|s1|] eqn:E; try discriminate.
  injection H as <-. split.
  - exact (run_loop_NoErr _ _ _ _ _ E).
  - reflexivity.
Qed.

(** X16.  A [Signal.Write] of a new value outside any batch and flush
    that returns normally has run its flush to the end: afterwards nothing
    is scheduled and the scheduler is not running. *)
Theorem Write_toplevel_flushes fuel st n v st' :
  isEqual (Value st n) v = false ->
  rt_depth st = 0%nat -> s_running (rt_sched st) = false ->
  Write fuel st n v = Done st' ->
  s_scheduled (rt_sched st') = false /\ s_running (rt_sched st') = false.
Proof.
  intros Heq Hd Hr H.
  destruct fuel as [|[|f]]; [discriminate| |].
  - cbn [Write] in H. rewrite Heq in H. discriminate.
  - cbn [Write Schedule] in H. rewrite Heq in H.
    set (st2 := modify_node _ n _) in H.
    set (st3 := InsertAll st2 _) in H.
    destruct (WriteProps.InsertAll_others (n_subs (node st2 n)) st2) as (_ & D & _).
    destruct (ComputedProps.InsertAll_rest (n_subs (node st2 n)) st2) as (_ & S & _).
    fold st3 in D, S.
    assert (Hr3 : s_running (rt_sched (SchedSchedule st3)) = false).
    { change (s_running (rt_sched st3) = false). rewrite S. exact Hr. }
    change (rt_depth (SchedSchedule st3)) with (rt_depth st3) in H.
    rewrite Hr3, D in H. change (rt_depth st2) with (rt_depth st) in H.
    rewrite Hd in H. cbn [Nat.eqb negb andb] in H.
    exact (Flush_idle f _ _ Hr3 H).
Qed.

Lemma Write_toplevel_flushes_witness :
  match Write 10 (fst (NewSignal (NewRuntime 1) (GInt 0))) 0 (GInt 5) with
  | Done st' => s_scheduled (rt_sched st') = false /\ s_running (rt_sched st') = false
  | _ => False
  end.
Proof.
  destruct (Write 10 (fst (NewSignal (NewRuntime 1) (GInt 0))) 0 (GInt 5)) as [s|s|] eqn:E;
    [| vm_compute in E; discriminate | vm_compute in E; discriminate].
  apply (Write_toplevel_flushes 10 (fst (NewSignal (NewRuntime 1) (GInt 0))) 0 (GInt 5) s);
    [reflexivity|reflexivity|reflexivity|exact E].
Defined.
End FlushProps.



Module BatchProps.

(** X17.  [Runtime.NewBatch] nested in another batch, with a body that
    keeps the depth balanced, never flushes: it runs the body one level
    deeper and restores the depth, also when the body panics. *)
Theorem NewBatch_inner_no_flush fuel st g :
  depth_balanced g -> rt_depth st <> 0%nat ->
  NewBatch fuel st g =
  match g (set_depth st (S (rt_depth st))) with
  | Done s => Done (set_depth s (rt_depth st))
  | Failed s => Failed (set_depth s (rt_depth st))
  | NoFuel => NoFuel
  end.
Proof.
  intros Hg Hd. unfold NewBatch.
  specialize (Hg (set_depth st (S (rt_depth st)))).
  destruct (g _) as [s|s|]; [| |reflexivity]; simpl in Hg; cbn [rt_depth set_depth];
    rewrite Hg; simpl; apply Nat.eqb_neq in Hd; rewrite Hd; reflexivity.
Qed.

(** X18.  A top-level [Runtime.NewBatch] whose body is a nested batch,
    with an innermost body that keeps the depth balanced, runs that body at
    depth 2 and then flushes exactly once, at depth 0; after a panic it
    flushes as well and the panic propagates. *)
Theorem NewBatch_nested_flushes_once fuel fuel' st g :
  depth_balanced g -> rt_depth st = 0%nat ->
  NewBatch fuel st (fun s => NewBatch fuel' s g) =
  match g (set_depth st 2) with
  | Done s => Flush fuel (set_depth s 0)
  | Failed s =>
      match Flush fuel (set_depth s 0) with
      | Done s2 | Failed s2 => Failed s2
      | NoFuel => NoFuel
      end
  | NoFuel => NoFuel
  end.
Proof.
  intros Hg Hd. unfold NewBatch at 1. unfold NewBatch. rewrite Hd.
  change (set_depth (set_depth st 1) (S (rt_depth (set_depth st 1)))) with (set_depth st 2).
  specialize (Hg (set_depth st 2)).
  destruct (g (set_depth st 2)) as [s|s|]; [| |reflexivity]; simpl in Hg;
    cbn [rt_depth set_depth]; rewrite Hg; reflexivity.
Qed.

Lemma NewBatch_nested_flushes_once_witness :
  NewBatch 5 (NewRuntime 1) (fun s => NewBatch 5 s (fun s' => Done s')) =
  Flush 5 (set_depth (set_depth (NewRuntime 1) 2) 0).
Proof.
  apply (NewBatch_nested_flushes_once 5 5 (NewRuntime 1) (fun s' => Done s'));
    [intros s; reflexivity|reflexivity].
Defined.

Lemma NewBatch_inner_no_flush_witness :
  NewBatch 5 (set_depth (NewRuntime 1) 1) (fun s => Done (set_out s [GInt 1])) =
  Done (set_depth (set_out (set_depth (set_depth (NewRuntime 1) 1) 2) [GInt 1]) 1).
Proof.
  apply (NewBatch_inner_no_flush 5 (set_depth (NewRuntime 1) 1) (fun s => Done (set_out s [GInt 1])));
    [intros s; reflexivity|discriminate].
Defined.

End BatchProps.

